(** * threshold_matrix.py: keeping the [n_keep] highest weights of a matrix

    A shallow embedding of [src/threshold_matrix.py] and the properties of
    its thresholding function [threshold_Mtriu] and of its two file writers
    [save_mat] and [save_png].

    Modelling choices.
    - A weight is a finite floating-point number.  The functions below never
      do arithmetic on weights: they compare them ([np.sort]), test them for
      equality ([==]), copy them and write the constant [0].  Every finite
      float is a rational number, so weights are canonical rationals [Qc]
      with their order and their (Leibniz) equality; NaN and the infinities
      are left out.
    - A numpy array is a view on a buffer, and an indexed assignment writes
      into the buffer.  Arrays are therefore records of a buffer address, a
      shape and a layout flag, and buffers live in a store, which keeps the
      entries of an array in row-major order.  [reshape(-1)] is a new array
      object on the same buffer when numpy can flatten the array without
      copying, and a copy on a fresh buffer otherwise.  The store holds the
      buffers that the caller can reach: a copy made by a call that raises
      is lost with the frame of the call.
    - The module binds the names of its import statements and of its own
      definitions; a global name that it does not bind raises [NameError]
      where it is used.
    - [print] appends a line to the standard output held in the state.
    - [np.random.shuffle] is an oracle [shuffle : list nat → list nat]; the
      results about "every outcome of the shuffle" hold for every oracle
      that returns a permutation of its argument.
    - The file system is a finite map from paths to contents, with the trace
      of the writes performed. *)

From Stdlib Require Import QArith Qcanon.
From stdpp Require Import numbers sorting gmap strings list.

(** ** Weights *)

Abbreviation weight := Qc.

(** The weight with the integer value [z]; [w 0] is the [0] of [Qc]. *)
Definition w (z : Z) : weight := Q2Qc (inject_Z z).

(** ** Python sequences: indexing and slicing with signed indices *)

Section python_sequences.
Context {A : Type}.

(** [l[i]]: counts from the end when [i] is negative, and raises
    [IndexError] (here [None]) outside [-len l <= i < len l]. *)
Definition py_index (l : list A) (i : Z) : option A :=
  let n := Z.of_nat (length l) in
  if decide (0 ≤ i < n)%Z then l !! Z.to_nat i
  else if decide (- n ≤ i < 0)%Z then l !! Z.to_nat (n + i)
  else None.

(** [l[i:]]: a negative start counts from the end; the start is clipped
    to [0 .. len l], and a slice never fails. *)
Definition py_slice_from (l : list A) (i : Z) : list A :=
  let n := Z.of_nat (length l) in
  if decide (0 ≤ i)%Z then drop (Z.to_nat i) l
  else drop (Z.to_nat (n + i)) l.
End python_sequences.

(** The position that a signed index denotes in a sequence of length
    [len], when it denotes one. *)
Definition py_position (len : nat) (i : Z) : option nat :=
  let n := Z.of_nat len in
  if decide (0 ≤ i < n)%Z then Some (Z.to_nat i)
  else if decide (- n ≤ i < 0)%Z then Some (Z.to_nat (n + i))
  else None.

(** ** numpy arrays *)

(** [flat_view a] says whether [a.reshape(-1)] is a view of [a].  numpy
    flattens without copying whenever the strides allow it: always for a
    C-contiguous array (what [np.triu] and [np.loadtxt] return), never for,
    say, the transpose of a matrix with several rows and columns. *)
Record ndarray := NDArray { base : nat; shape : list nat; flat_view : bool }.

Definition arr_size (a : ndarray) : nat := foldr Nat.mul 1 (shape a).

(** [np.sort]: ascending. *)
Definition np_sort (l : list weight) : list weight := merge_sort Qcle l.

(** [np.argwhere(a == t)] on a vector: the positions that hold [t], in
    increasing order. *)
Definition np_argwhere_eq (a : list weight) (t : weight) : list nat :=
  filter (λ p, a !! p = Some t) (seq 0 (length a)).

(** [a[I] = 0] for an array [I] of positions.  numpy raises on a position
    out of range; the positions written here come from [np.argwhere] on the
    same vector. *)
Definition assign_zero (I : list nat) (a : list weight) : list weight :=
  foldr (λ p b, <[p := 0%Qc]> b) a I.

(** ** The state: the store of buffers and the standard output *)

Inductive line :=
  | line_n_keep (k : Z)
  | line_keep_values_len (n : nat)
  | line_thresh (t : weight)
  | line_n_thresh_keep (n : nat)
  | line_len_idx (n : nat).

Record state := State { arrays : gmap nat (list weight); stdout : list line }.

Inductive exn := IndexError | NameError | ValueError.

Definition print (l : line) (s : state) : state :=
  {| arrays := arrays s; stdout := stdout s ++ [l] |}.

Definition read (s : state) (a : ndarray) : list weight := arrays s !!! base a.

Definition write (a : ndarray) (v : list weight) (s : state) : state :=
  {| arrays := <[base a := v]> (arrays s); stdout := stdout s |}.

(** [a.reshape(-1)]: a view of [a] when numpy can flatten [a] without
    copying, and otherwise a C-contiguous copy on a fresh buffer. *)
Definition reshape_flat (a : ndarray) (s : state) : state * ndarray :=
  if flat_view a then
    (s, {| base := base a; shape := [arr_size a]; flat_view := true |})
  else
    let b := fresh (dom (arrays s)) in
    ({| arrays := <[b := read s a]> (arrays s); stdout := stdout s |},
     {| base := b; shape := [arr_size a]; flat_view := true |}).

(** [v.reshape(shp)] of a vector [v]: always a view. *)
Definition reshape (v : ndarray) (shp : list nat) : ndarray :=
  {| base := base v; shape := shp; flat_view := true |}.

(** ** threshold_Mtriu *)

Definition threshold_Mtriu (shuffle : list nat → list nat)
    (M_triu : ndarray) (n_keep : Z) (s : state) : state * (exn + ndarray) :=
  let s0 := print (line_n_keep n_keep) s in
  (* Reshape M_triu into one long vector *)
  let '(s, M_triu_unzip) := reshape_flat M_triu s0 in
  (* Sort the values in M_triu and find the nth value *)
  let M_triu_unzip_sorted := np_sort (read s M_triu_unzip) in
  let keep_values := py_slice_from M_triu_unzip_sorted (- n_keep) in
  match py_index M_triu_unzip_sorted (- n_keep) with
  | None => (s0, inl IndexError)
  | Some thresh =>
    let s := print (line_keep_values_len (length keep_values)) s in
    let s := print (line_thresh thresh) s in
    (* Count how many of those values need to remain in M_triu *)
    let n_thresh_keep := length (filter (λ v, v = thresh) keep_values) in
    let s := print (line_n_thresh_keep n_thresh_keep) s in
    (* Find all the indices in M_triu that have that value *)
    let idx := shuffle (np_argwhere_eq (read s M_triu_unzip) thresh) in
    let s := print (line_len_idx (length idx)) s in
    (* Now set all but the first n_thresh_keep of these to zero *)
    let s := write M_triu_unzip
               (assign_zero (drop n_thresh_keep idx) (read s M_triu_unzip)) s in
    let thresh_M_triu := reshape M_triu_unzip (shape M_triu) in
    (s, inr thresh_M_triu)
  end.

(** The local variables of [threshold_Mtriu] that the properties speak
    about, as functions of the flattened input. *)
Definition thresh_of (data : list weight) (n_keep : Z) : option weight :=
  py_index (np_sort data) (- n_keep).
Definition keep_values_of (data : list weight) (n_keep : Z) : list weight :=
  py_slice_from (np_sort data) (- n_keep).
Definition n_thresh_keep_of (data : list weight) (n_keep : Z) (thresh : weight) : nat :=
  length (filter (λ v, v = thresh) (keep_values_of data n_keep)).

(** The address of the buffer of [M_triu_unzip]: the buffer of the argument
    when the flattening is a view, a fresh one when it is a copy. *)
Definition flat_base (M_triu : ndarray) (s : state) : nat :=
  if flat_view M_triu then base M_triu else fresh (dom (arrays s)).

(** The buffer that [threshold_Mtriu] leaves behind when the threshold is
    [thresh]. *)
Definition thresholded (shuffle : list nat → list nat)
    (data : list weight) (n_keep : Z) (thresh : weight) : list weight :=
  assign_zero
    (drop (n_thresh_keep_of data n_keep thresh)
       (shuffle (np_argwhere_eq data thresh)))
    data.

(** The five lines printed by a call that returns. *)
Definition printed (shuffle : list nat → list nat)
    (data : list weight) (n_keep : Z) (thresh : weight) : list line :=
  [ line_n_keep n_keep;
    line_keep_values_len (length (keep_values_of data n_keep));
    line_thresh thresh;
    line_n_thresh_keep (n_thresh_keep_of data n_keep thresh);
    line_len_idx (length (shuffle (np_argwhere_eq data thresh))) ].

(** The contents of the matrix that a call returns; [None] when the call
    raises. *)
Definition result_of (shuffle : list nat → list nat)
    (M_triu : ndarray) (n_keep : Z) (s : state) : option (list weight) :=
  match threshold_Mtriu shuffle M_triu n_keep s with
  | (s', inr thresh_M_triu) => arrays s' !! base thresh_M_triu
  | (_, inl _) => None
  end.

(** The tied positions that a call keeps, and those that it sets to zero. *)
Definition kept_positions (shuffle : list nat → list nat)
    (data : list weight) (n_keep : Z) (thresh : weight) : list nat :=
  take (n_thresh_keep_of data n_keep thresh)
    (shuffle (np_argwhere_eq data thresh)).
Definition dropped_positions (shuffle : list nat → list nat)
    (data : list weight) (n_keep : Z) (thresh : weight) : list nat :=
  drop (n_thresh_keep_of data n_keep thresh)
    (shuffle (np_argwhere_eq data thresh)).

(** ** Square matrices and their strict upper triangle *)

(** Row-major layout: the cell in row [i] and column [j] of an [n]×[n]
    matrix is at position [i * n + j].  A candidate cell is one strictly
    above the diagonal. *)
Definition is_candidate (n p : nat) : bool := bool_decide (p / n < p `mod` n).

Definition candidate_cells (n : nat) : list nat :=
  filter (λ p, is_candidate n p = true) (seq 0 (n * n)).

Definition n_candidates (n : nat) : nat := length (candidate_cells n).

(** The cell mirrored in the diagonal. *)
Definition transpose (n p : nat) : nat := p `mod` n * n + p / n.

(** [np.triu(M, 1)]: a fresh array, zero on and below the diagonal. *)
Definition np_triu1 (n : nat) (data : list weight) : list weight :=
  imap (λ p v, if is_candidate n p then v else 0%Qc) data.

(** The entries of [l] at the positions that satisfy [f]. *)
Fixpoint select_from {A} (f : nat → bool) (i : nat) (l : list A) : list A :=
  match l with
  | [] => []
  | x :: l' =>
    if f i then x :: select_from f (S i) l' else select_from f (S i) l'
  end.

Definition candidates (n : nat) (data : list weight) : list weight :=
  select_from (is_candidate n) 0 data.

(** The precondition of [threshold_Mtriu]: an [n]×[n] matrix whose entries
    on and below the diagonal are zero. *)
Definition upper_triangular (n : nat) (data : list weight) : Prop :=
  length data = n * n ∧
  ∀ p v, data !! p = Some v → is_candidate n p = false → v = 0%Qc.

Definition valid_input (s : state) (M : ndarray) (n : nat) (data : list weight) : Prop :=
  shape M = [n; n] ∧ arrays s !! base M = Some data ∧ upper_triangular n data.

Definition is_shuffle (shuffle : list nat → list nat) : Prop :=
  ∀ l, shuffle l ≡ₚ l.

(** Counting the entries of a list that satisfy a predicate. *)
Definition count {A} (P : A → Prop) `{!∀ x, Decision (P x)} (l : list A) : nat :=
  length (filter P l).

(** The [k]-th largest value of a list, ties counted by value: the [k]-th
    entry of the list sorted in descending order. *)
Definition kth_largest (k : nat) (l : list weight) : option weight :=
  match k with
  | O => None
  | S k' => reverse (np_sort l) !! k'
  end.

(** The smallest value of a list. *)
Definition minimum (l : list weight) : option weight := head (np_sort l).

(** ** The script *)

(** [np.triu(M, 1)] on a two-dimensional array with [c] columns: a new
    array on a fresh buffer, equal to [M] strictly above the diagonal and
    zero elsewhere.  (Arrays with another number of dimensions are outside
    this model: [None].) *)
Definition np_triu (M : ndarray) (s : state) : option (state * ndarray) :=
  match shape M with
  | [r; c] =>
    let a := fresh (dom (arrays s)) in
    Some ({| arrays := <[a := np_triu1 c (read s M)]> (arrays s);
             stdout := stdout s |},
          {| base := a; shape := shape M; flat_view := true |})
  | _ => None
  end.

(** The script from the loaded matrix to the thresholded one:
    [M_triu = np.triu(M, 1); thr_M_triu = threshold_Mtriu(M_triu, n_keep)]. *)
Definition threshold_loaded (shuffle : list nat → list nat)
    (M : ndarray) (n_keep : Z) (s : state) : option (state * (exn + ndarray)) :=
  (* Zero out the lower triangle and the diagonal *)
  match np_triu M s with
  | Some (s, M_triu) =>
    (* Threshold M_triu *)
    Some (threshold_Mtriu shuffle M_triu n_keep s)
  | None => None
  end.

(** ** The file writers *)

(** What a file holds: the rows that [np.savetxt] rendered with the format
    ['%.5f'] and tabs, or the rows whose [log1p] heat map [savefig]
    rendered.  The rendering itself is floating-point formatting and
    drawing; a file is identified by what was rendered. *)
Inductive content :=
  | text_file (rows : list (list weight))
  | png_file (rows : list (list weight)).

(** The files by path, and the trace of the paths written. *)
Record filesystem :=
  FileSystem { files : gmap string content; written : list string }.

(** The global names of the module: those bound by its import statements
    (lines 15 to 17), by its four definitions and by the assignments of the
    script (lines 119 to 131).  [os] is not among them, and it is not a
    builtin. *)
Definition module_globals : list string :=
  [ "np"; "plt"; "argparse";
    "setup_argparser"; "threshold_Mtriu"; "save_mat"; "save_png";
    "arguments"; "parser"; "M_file"; "n_keep"; "M"; "M_triu";
    "thr_M_triu" ]%string.

(** Reading a global name: [NameError] when the module does not bind it. *)
Definition lookup_global (name : string) : exn + () :=
  if decide (name ∈ module_globals) then inr () else inl NameError.

(** [os.path.exists(path)]: the name [os] is read first. *)
Definition os_path_exists (fs : filesystem) (path : string) : exn + bool :=
  match lookup_global "os" with
  | inl e => inl e
  | inr _ => inr (bool_decide (is_Some (files fs !! path)))
  end.

Definition write_file (path : string) (c : content) (fs : filesystem) : filesystem :=
  {| files := <[path := c]> (files fs); written := written fs ++ [path] |}.

(** [M[1:, 1:]] for a matrix [M] of two dimensions: the matrix without its
    first row and column. *)
Definition slice_1_1 (shp : list nat) (data : list weight)
    : option (list (list weight)) :=
  match shp with
  | [r; c] => Some ((λ i, take (c - 1) (drop (i * c + 1) data)) <$> seq 1 (r - 1))
  | _ => None
  end.

(** [if not os.path.exists(M_text_name): np.savetxt(M_text_name, M[1:,1:], ...)].
    The slice raises [IndexError] on an array of fewer than two dimensions,
    before anything is written; [np.savetxt] opens the file, which creates
    it empty, and then rejects an array of more than two dimensions with
    [ValueError]. *)
Definition save_mat (s : state) (M : ndarray) (M_text_name : string)
    (fs : filesystem) : filesystem * (exn + ()) :=
  (* Save the matrix as a text file *)
  match os_path_exists fs M_text_name with
  | inl e => (fs, inl e)
  | inr true => (fs, inr ())
  | inr false =>
    match slice_1_1 (shape M) (read s M) with
    | Some rows => (write_file M_text_name (text_file rows) fs, inr ())
    | None =>
      if decide (length (shape M) < 2) then (fs, inl IndexError)
      else (write_file M_text_name (text_file []) fs, inl ValueError)
    end
  end.

(** [if not os.path.exists(M_fig_name): ...; fig.savefig(M_fig_name, ...)].
    What [imshow] does with an empty slice or with an array of more than
    two dimensions is outside this model: [None]. *)
Definition save_png (s : state) (M : ndarray) (M_fig_name : string)
    (fs : filesystem) : option (filesystem * (exn + ())) :=
  (* Make a png image of the matrix *)
  match os_path_exists fs M_fig_name with
  | inl e => Some (fs, inl e)
  | inr true => Some (fs, inr ())
  | inr false =>
    (* Plot the matrix on a log scale, add a colorbar, save the figure *)
    match shape M with
    | [] | [_] => Some (fs, inl IndexError)
    | [r; c] =>
      if decide (2 ≤ r ∧ 2 ≤ c) then
        match slice_1_1 (shape M) (read s M) with
        | Some rows => Some (write_file M_fig_name (png_file rows) fs, inr ())
        | None => None
        end
      else None
    | _ => None
    end
  end.

(** A decision procedure for [upper_triangular]. *)
Definition upper_triangularb (n : nat) (data : list weight) : bool :=
  bool_decide (length data = n * n) &&
  forallb (λ p, is_candidate n p || bool_decide (data !! p = Some 0%Qc))
    (seq 0 (length data)).

(** ** Sample inputs *)

(** A 3×3 matrix held at address 0, and the state that holds only it. *)
Definition sample_M : ndarray := NDArray 0 [3; 3] true.
Definition sample_state (data : list weight) : state := State {[ 0 := data ]} [].

(** [[0,1,2],[0,0,3],[0,0,0]]: three distinct candidates. *)
Definition sample_distinct : list weight := w <$> [0; 1; 2; 0; 0; 3; 0; 0; 0]%Z.
(** [[0,5,5],[0,0,5],[0,0,0]]: three tied candidates. *)
Definition sample_ties : list weight := w <$> [0; 5; 5; 0; 0; 5; 0; 0; 0]%Z.
(** [[0,0,7],[0,0,0],[0,0,0]]: one candidate that is not zero. *)
Definition sample_sparse : list weight := w <$> [0; 0; 7; 0; 0; 0; 0; 0; 0]%Z.
(** [[0,-1],[0,0]]: a negative candidate. *)
Definition sample_M2 : ndarray := NDArray 0 [2; 2] true.
Definition sample_negative : list weight := w <$> [0; -1; 0; 0]%Z.
(** [[0,5],[0,0]] and the 1×1 matrix [[0]]. *)
Definition sample_one : list weight := w <$> [0; 5; 0; 0]%Z.
Definition sample_M1 : ndarray := NDArray 0 [1; 1] true.
Definition sample_1x1 : list weight := [0%Qc].

(** A file system that holds an earlier text output. *)
Definition sample_fs : filesystem :=
  FileSystem {[ "M_thr.txt"%string := text_file [[w 1]] ]} [].

(** [[9,1,2],[8,9,3],[7,6,9]]: a loaded matrix, not yet triangular. *)
Definition sample_full : list weight := w <$> [9; 1; 2; 8; 9; 3; 7; 6; 9]%Z.
(** A 3×3 matrix that numpy cannot flatten without copying, such as one
    stored in column-major order. *)
Definition sample_M_strided : ndarray := NDArray 0 [3; 3] false.

(** * Properties *)

(** ** The order on weights *)

Lemma Qc_lt_irrefl (x : weight) : ¬ (x < x)%Qc.
Proof. intros H. by apply (Qclt_not_eq x x). Qed.

Lemma Qc_le_lteq (x y : weight) : (x ≤ y)%Qc ↔ (x < y)%Qc ∨ x = y.
Proof.
  split.
  - apply Qcle_lt_or_eq.
  - intros [H | ->]; [by apply Qclt_le_weak | apply Qcle_refl].
Qed.

Lemma Qc_trichotomy (x y : weight) : (x < y)%Qc ∨ x = y ∨ (y < x)%Qc.
Proof. destruct (Qc_dec x y) as [[H | H] | H]; auto. Qed.

Lemma Qc_lt_not_gt (x y : weight) : (x < y)%Qc → ¬ (y < x)%Qc.
Proof. intros H1 H2. apply (Qc_lt_irrefl x). by apply Qclt_trans with y. Qed.

Lemma Qc_le_not_gt (x y : weight) : (x ≤ y)%Qc → ¬ (y < x)%Qc.
Proof. apply Qcle_not_lt. Qed.

(** Closes a goal whose hypotheses order two weights in incompatible ways. *)
Ltac qc_absurd :=
  exfalso; subst;
  match goal with
  | H : (?x < ?x)%Qc |- _ => exact (Qc_lt_irrefl _ H)
  | H1 : (?x < ?y)%Qc, H2 : (?y < ?x)%Qc |- _ => exact (Qc_lt_not_gt _ _ H1 H2)
  | H1 : (?x ≤ ?y)%Qc, H2 : (?y < ?x)%Qc |- _ => exact (Qc_le_not_gt _ _ H1 H2)
  | H1 : ¬ (?x < ?y)%Qc, H2 : ¬ (?y < ?x)%Qc, H3 : ?x ≠ ?y |- _ =>
    destruct (Qc_trichotomy x y) as [? | [? | ?]]; done
  | H1 : ¬ (?x < ?y)%Qc, H2 : ¬ (?y < ?x)%Qc, H3 : ?y ≠ ?x |- _ =>
    destruct (Qc_trichotomy x y) as [? | [? | ?]]; done
  end.

(** ** Counting *)

Section counting.
Context {A : Type}.
Implicit Types (P Q : A → Prop) (l : list A).

Lemma count_nil P `{!∀ x, Decision (P x)} : count P [] = 0.
Proof. done. Qed.

Lemma count_app P `{!∀ x, Decision (P x)} l1 l2 :
  count P (l1 ++ l2) = count P l1 + count P l2.
Proof. unfold count. by rewrite filter_app, length_app. Qed.

Lemma count_perm P `{!∀ x, Decision (P x)} l1 l2 :
  l1 ≡ₚ l2 → count P l1 = count P l2.
Proof. intros Hyp. unfold count. by rewrite Hyp. Qed.

Lemma count_le_length P `{!∀ x, Decision (P x)} l : count P l ≤ length l.
Proof. apply length_filter. Qed.

Lemma count_mono P Q `{!∀ x, Decision (P x)} `{!∀ x, Decision (Q x)} l :
  (∀ x, x ∈ l → P x → Q x) → count P l ≤ count Q l.
Proof.
  unfold count. induction l as [| x l IH]; intros Hyp; [done |].
  rewrite !filter_cons.
  assert (length (filter P l) ≤ length (filter Q l)) as Hl.
  { apply IH. intros y Hy. apply Hyp. by right. }
  destruct (decide (P x)) as [HP | HP]; destruct (decide (Q x)) as [HQ | HQ];
    simpl; try lia.
  destruct HQ. apply Hyp; [left | done].
Qed.

Lemma count_ext P Q `{!∀ x, Decision (P x)} `{!∀ x, Decision (Q x)} l :
  (∀ x, x ∈ l → P x ↔ Q x) → count P l = count Q l.
Proof.
  intros Hyp. apply Nat.le_antisymm; apply count_mono; intros x Hx; by apply Hyp.
Qed.

Lemma count_all P `{!∀ x, Decision (P x)} l :
  Forall P l → count P l = length l.
Proof.
  unfold count. induction 1 as [| x l HP _ IH]; [done |].
  rewrite filter_cons_True by done. simpl. by rewrite IH.
Qed.

Lemma count_none P `{!∀ x, Decision (P x)} l :
  Forall (λ x, ¬ P x) l → count P l = 0.
Proof.
  unfold count. induction 1 as [| x l HP _ IH]; [done |].
  by rewrite filter_cons_False.
Qed.

Lemma count_complement P `{!∀ x, Decision (P x)} l :
  count P l + count (λ x, ¬ P x) l = length l.
Proof.
  unfold count. rewrite <-length_app. by rewrite filter_app_complement.
Qed.

Lemma count_pos P `{!∀ x, Decision (P x)} l x :
  x ∈ l → P x → 0 < count P l.
Proof.
  intros Hx HP. unfold count.
  assert (x ∈ filter P l) as Hin by (by apply list_elem_of_filter).
  destruct (filter P l); [by apply not_elem_of_nil in Hin | simpl; lia].
Qed.

(** Counting entries by value is counting positions by the value held. *)
Lemma count_positions_from P `{!∀ x, Decision (P x)}
    (Q : nat → Prop) `{!∀ p, Decision (Q p)} l i :
  (∀ j x, l !! j = Some x → Q (i + j) ↔ P x) →
  length (filter Q (seq i (length l))) = count P l.
Proof.
  unfold count. revert i. induction l as [| x l IH]; intros i Hyp; [done |].
  simpl length. simpl seq. rewrite !filter_cons.
  assert (length (filter Q (seq (S i) (length l))) = length (filter P l)) as Hl.
  { apply IH. intros j y Hj. rewrite <-(Hyp (S j) y Hj).
    by replace (S i + j) with (i + S j) by lia. }
  pose proof (Hyp 0 x eq_refl) as Hyp0. rewrite Nat.add_0_r in Hyp0.
  destruct (decide (Q i)) as [HQ | HQ]; destruct (decide (P x)) as [HP | HP];
    simpl; try lia; tauto.
Qed.
End counting.

(** Every entry is below, at or above a given weight. *)
Lemma count_trichotomy (t : weight) (l : list weight) :
  count (λ v, (v < t)%Qc) l + count (λ v, v = t) l + count (λ v, (t < v)%Qc) l
  = length l.
Proof.
  unfold count. induction l as [| x l IH]; [done |].
  rewrite !filter_cons. simpl length.
  destruct (decide (x < t)%Qc) as [H1 | H1];
    destruct (decide (x = t)) as [H2 | H2];
    destruct (decide (t < x)%Qc) as [H3 | H3]; simpl; try lia.
  all: qc_absurd.
Qed.

(** ** Signed indices *)

Section python_sequences_facts.
Context {A : Type}.
Implicit Types (l : list A) (i : Z).

Lemma py_position_Some len i j :
  py_position len i = Some j → j < len.
Proof. unfold py_position. intros H. repeat case_decide; simplify_eq; lia. Qed.

Lemma py_position_None len i :
  py_position len i = None ↔ (Z.of_nat len ≤ i ∨ i < - Z.of_nat len)%Z.
Proof. unfold py_position. repeat case_decide; split; intros; try done; lia. Qed.

Lemma py_index_position l i :
  py_index l i = py_position (length l) i ≫= (l !!.).
Proof. unfold py_index, py_position. by repeat case_decide. Qed.

Lemma py_slice_from_position l i j :
  py_position (length l) i = Some j → py_slice_from l i = drop j l.
Proof.
  unfold py_slice_from, py_position. intros H.
  repeat case_decide; simplify_eq; try done; lia.
Qed.

Lemma py_index_None l i :
  py_index l i = None ↔
  (Z.of_nat (length l) ≤ i ∨ i < - Z.of_nat (length l))%Z.
Proof.
  rewrite py_index_position, <-py_position_None.
  destruct (py_position (length l) i) as [j |] eqn:Hj; simpl; [| done].
  apply py_position_Some in Hj. apply lookup_lt_is_Some_2 in Hj as [x Hx].
  by rewrite Hx.
Qed.

Lemma py_index_Some l i x :
  py_index l i = Some x →
  ∃ j, py_position (length l) i = Some j ∧ l !! j = Some x.
Proof.
  rewrite py_index_position.
  destruct (py_position (length l) i) as [j |]; simpl; [eauto | done].
Qed.

(** The last [k] entries, for [1 <= k <= len l]. *)
Lemma py_position_from_end len (k : nat) :
  1 ≤ k ≤ len → py_position len (- Z.of_nat k) = Some (len - k).
Proof.
  intros Hk. unfold py_position. repeat case_decide; try lia.
  f_equal. lia.
Qed.
End python_sequences_facts.

(** ** Sorting *)

Lemma np_sort_perm (l : list weight) : np_sort l ≡ₚ l.
Proof. apply merge_sort_Permutation. Qed.

Lemma np_sort_sorted (l : list weight) : StronglySorted Qcle (np_sort l).
Proof. apply StronglySorted_merge_sort; apply _. Qed.

Lemma length_np_sort (l : list weight) : length (np_sort l) = length l.
Proof. by rewrite np_sort_perm. Qed.

Lemma count_np_sort (P : weight → Prop) `{!∀ x, Decision (P x)} l :
  count P (np_sort l) = count P l.
Proof. apply count_perm, np_sort_perm. Qed.

(** In a sorted list the entries before a position are at most the entry
    there, and those from the position on are at least it. *)
Lemma sorted_split (S : list weight) (j : nat) (t : weight) :
  StronglySorted Qcle S → S !! j = Some t →
  Forall (λ v, (v ≤ t)%Qc) (take j S) ∧ Forall (λ v, (t ≤ v)%Qc) (drop j S).
Proof.
  intros HS Hj.
  pose proof (take_drop j S) as Hsplit.
  rewrite (drop_S _ _ _ Hj) in Hsplit. rewrite <-Hsplit in HS.
  split.
  - apply Forall_forall. intros v Hv.
    apply (StronglySorted_app_1_elem_of _ _ _ _ _ HS Hv). by left.
  - rewrite (drop_S _ _ _ Hj).
    apply StronglySorted_app_1_r in HS. inversion HS as [| ? ? _ Hall]; subst.
    constructor; [apply Qcle_refl | done].
Qed.

Section rank.
Variables (data : list weight) (j : nat) (t : weight).
Hypothesis Hj : np_sort data !! j = Some t.

Let keep := drop j (np_sort data).

Lemma rank_take_le : Forall (λ v, (v ≤ t)%Qc) (take j (np_sort data)).
Proof. by apply sorted_split; [apply np_sort_sorted |]. Qed.

Lemma rank_keep_ge : Forall (λ v, (t ≤ v)%Qc) keep.
Proof. by apply sorted_split; [apply np_sort_sorted |]. Qed.

Lemma rank_j_lt : j < length data.
Proof. rewrite <-length_np_sort. by apply lookup_lt_Some in Hj. Qed.

Lemma length_keep : length keep = length data - j.
Proof. unfold keep. by rewrite length_drop, length_np_sort. Qed.

(** The entries above [t] are all among the kept ones. *)
Lemma rank_above_in_keep :
  count (λ v, (t < v)%Qc) data = count (λ v, (t < v)%Qc) keep.
Proof.
  rewrite <-(count_np_sort _ data).
  rewrite <-(take_drop j (np_sort data)) at 1.
  rewrite count_app, count_none; [done |].
  eapply Forall_impl; [apply rank_take_le |].
  intros v Hv Hlt. simpl in *. qc_absurd.
Qed.

(** The entries below [t] are all among the dropped ones. *)
Lemma rank_below : count (λ v, (v < t)%Qc) data ≤ j.
Proof.
  rewrite <-(count_np_sort _ data).
  rewrite <-(take_drop j (np_sort data)).
  rewrite count_app, (count_none _ (drop _ _)).
  - etrans; [rewrite Nat.add_0_r; apply count_le_length |].
    rewrite length_take. lia.
  - eapply Forall_impl; [apply rank_keep_ge |].
    intros v Hv Hlt. simpl in *. qc_absurd.
Qed.

(** The kept entries hold [t] or are above it. *)
Lemma rank_keep_split :
  count (λ v, (t < v)%Qc) data + count (λ v, v = t) keep = length data - j.
Proof.
  rewrite rank_above_in_keep, <-length_keep.
  pose proof (count_trichotomy t keep) as Htri.
  rewrite (count_none (λ v, (v < t)%Qc)) in Htri; [lia |].
  eapply Forall_impl; [apply rank_keep_ge |].
  intros v Hv Hlt. simpl in *. qc_absurd.
Qed.

Lemma rank_ties_pos : 1 ≤ count (λ v, v = t) keep.
Proof.
  apply (count_pos _ _ t); [| done].
  unfold keep. rewrite (drop_S _ _ _ Hj). by left.
Qed.

Lemma rank_ties_le : count (λ v, v = t) keep ≤ count (λ v, v = t) data.
Proof.
  rewrite <-(count_np_sort _ data).
  rewrite <-(take_drop j (np_sort data)).
  rewrite count_app. fold keep. lia.
Qed.

Lemma rank_thresh_in : t ∈ data.
Proof. rewrite <-np_sort_perm. by eapply list_elem_of_lookup_2. Qed.
End rank.

(** ** Positions *)

Lemma elem_of_np_argwhere_eq (a : list weight) (t : weight) (p : nat) :
  p ∈ np_argwhere_eq a t ↔ a !! p = Some t.
Proof.
  unfold np_argwhere_eq. rewrite list_elem_of_filter, elem_of_seq.
  split; [by intros [? _] |].
  intros Hp. split; [done |]. apply lookup_lt_Some in Hp. lia.
Qed.

Lemma NoDup_np_argwhere_eq (a : list weight) (t : weight) :
  NoDup (np_argwhere_eq a t).
Proof. apply NoDup_filter, NoDup_seq. Qed.

Lemma length_np_argwhere_eq (a : list weight) (t : weight) :
  length (np_argwhere_eq a t) = count (λ v, v = t) a.
Proof.
  unfold np_argwhere_eq. apply count_positions_from.
  intros p x Hp. simpl. rewrite Hp. split; congruence.
Qed.

Lemma length_assign_zero (I : list nat) (a : list weight) :
  length (assign_zero I a) = length a.
Proof.
  induction I as [| p I IH]; [done |]. simpl. by rewrite length_insert.
Qed.

Lemma assign_zero_lookup_in (I : list nat) (a : list weight) (p : nat) :
  p ∈ I → p < length a → assign_zero I a !! p = Some 0%Qc.
Proof.
  induction I as [| q I IH]; intros Hin Hp; [by apply not_elem_of_nil in Hin |].
  simpl. destruct (decide (q = p)) as [-> | Hne].
  - apply list_lookup_insert_eq. by rewrite length_assign_zero.
  - rewrite list_lookup_insert_ne by done. apply IH; [| done].
    apply elem_of_cons in Hin as [? | ?]; [congruence | done].
Qed.

Lemma assign_zero_lookup_notin (I : list nat) (a : list weight) (p : nat) :
  p ∉ I → assign_zero I a !! p = a !! p.
Proof.
  induction I as [| q I IH]; intros Hin; [done |].
  apply not_elem_of_cons in Hin as [Hne Hin].
  simpl. rewrite list_lookup_insert_ne by done. by apply IH.
Qed.

(** ** Running threshold_Mtriu *)

Lemma threshold_Mtriu_returns shuffle M k s data t :
  arrays s !! base M = Some data → thresh_of data k = Some t →
  threshold_Mtriu shuffle M k s =
    (State (<[flat_base M s := thresholded shuffle data k t]> (arrays s))
           (stdout s ++ printed shuffle data k t),
     inr (NDArray (flat_base M s) (shape M) true)).
Proof.
  intros Hdata Ht.
  unfold threshold_Mtriu, reshape_flat, flat_base, read, thresh_of in *.
  destruct (flat_view M); simpl.
  - rewrite (lookup_total_correct _ _ _ Hdata), Ht. simpl.
    unfold write, reshape, thresholded, printed, n_thresh_keep_of,
      keep_values_of.
    simpl. f_equal. f_equal. by rewrite <-!app_assoc.
  - rewrite (lookup_total_correct _ _ _ Hdata), lookup_total_insert_eq, Ht.
    simpl.
    unfold write, reshape, thresholded, printed, n_thresh_keep_of,
      keep_values_of.
    simpl. rewrite insert_insert_eq.
    f_equal. f_equal. by rewrite <-!app_assoc.
Qed.

Lemma threshold_Mtriu_raises shuffle M k s data :
  arrays s !! base M = Some data → thresh_of data k = None →
  threshold_Mtriu shuffle M k s = (print (line_n_keep k) s, inl IndexError).
Proof.
  intros Hdata Ht.
  unfold threshold_Mtriu, reshape_flat, read, thresh_of in *.
  destruct (flat_view M); simpl.
  - by rewrite (lookup_total_correct _ _ _ Hdata), Ht.
  - by rewrite (lookup_total_correct _ _ _ Hdata), lookup_total_insert_eq, Ht.
Qed.

(** The buffer of the flattened argument is the argument's own buffer when
    the flattening is a view, and a buffer that the store does not hold
    yet when it is a copy. *)
Lemma flat_base_view M s : flat_view M = true → flat_base M s = base M.
Proof. unfold flat_base. by intros ->. Qed.

Lemma flat_base_copy M s :
  flat_view M = false → flat_base M s ∉ dom (arrays s).
Proof. unfold flat_base. intros ->. apply is_fresh. Qed.

Lemma returned_view M s :
  flat_view M = true → NDArray (flat_base M s) (shape M) true = M.
Proof. intros Hv. rewrite flat_base_view by done. destruct M; simpl in *. by subst. Qed.

Lemma result_of_returns shuffle M k s data t :
  arrays s !! base M = Some data → thresh_of data k = Some t →
  result_of shuffle M k s = Some (thresholded shuffle data k t).
Proof.
  intros Hdata Ht. unfold result_of.
  rewrite (threshold_Mtriu_returns _ _ _ _ _ _ Hdata Ht). simpl.
  apply lookup_insert_eq.
Qed.

Lemma thresh_of_Some data k t :
  thresh_of data k = Some t →
  ∃ j, py_position (length data) (- k) = Some j ∧ np_sort data !! j = Some t.
Proof.
  unfold thresh_of. intros H. apply py_index_Some in H.
  by rewrite length_np_sort in H.
Qed.

Lemma thresh_of_is_Some data k :
  (- Z.of_nat (length data) < k ≤ Z.of_nat (length data))%Z →
  is_Some (thresh_of data k).
Proof.
  intros Hk. unfold thresh_of.
  destruct (py_index (np_sort data) (- k)) as [t |] eqn:Ht; [eauto |].
  apply py_index_None in Ht. rewrite length_np_sort in Ht. lia.
Qed.

(** ** The tie-break *)

Section tie_break.
Variables (shuffle : list nat → list nat) (data : list weight).
Variables (k : Z) (j : nat) (t : weight).
Hypothesis Hshuffle : is_shuffle shuffle.
Hypothesis Hpos : py_position (length data) (- k) = Some j.
Hypothesis Hj : np_sort data !! j = Some t.

Let idx := shuffle (np_argwhere_eq data t).
Let n_thresh_keep := n_thresh_keep_of data k t.

Lemma keep_values_of_drop : keep_values_of data k = drop j (np_sort data).
Proof.
  unfold keep_values_of. apply py_slice_from_position.
  by rewrite length_np_sort.
Qed.

Lemma n_thresh_keep_count :
  n_thresh_keep = count (λ v, v = t) (drop j (np_sort data)).
Proof.
  unfold n_thresh_keep, n_thresh_keep_of. by rewrite keep_values_of_drop.
Qed.

Lemma n_thresh_keep_above :
  count (λ v, (t < v)%Qc) data + n_thresh_keep = length data - j.
Proof. rewrite n_thresh_keep_count. by apply rank_keep_split. Qed.

Lemma elem_of_idx p : p ∈ idx ↔ data !! p = Some t.
Proof. unfold idx. by rewrite (Hshuffle _), elem_of_np_argwhere_eq. Qed.

Lemma NoDup_idx : NoDup idx.
Proof. unfold idx. rewrite (Hshuffle _). apply NoDup_np_argwhere_eq. Qed.

Lemma length_idx : length idx = count (λ v, v = t) data.
Proof. unfold idx. rewrite (Hshuffle _). apply length_np_argwhere_eq. Qed.

Lemma n_thresh_keep_le : n_thresh_keep ≤ length idx.
Proof. rewrite n_thresh_keep_count, length_idx. by apply rank_ties_le. Qed.

Lemma n_thresh_keep_pos : 1 ≤ n_thresh_keep.
Proof. rewrite n_thresh_keep_count. by apply rank_ties_pos. Qed.

Lemma length_kept : length (take n_thresh_keep idx) = n_thresh_keep.
Proof. apply length_take_le, n_thresh_keep_le. Qed.

Lemma kept_not_dropped p :
  p ∈ take n_thresh_keep idx → p ∉ drop n_thresh_keep idx.
Proof.
  pose proof NoDup_idx as Hnd.
  rewrite <-(take_drop n_thresh_keep idx) in Hnd.
  apply NoDup_app in Hnd as (_ & Hdisj & _). apply Hdisj.
Qed.

Lemma idx_kept_or_dropped p :
  p ∈ idx ↔ p ∈ take n_thresh_keep idx ∨ p ∈ drop n_thresh_keep idx.
Proof. by rewrite <-elem_of_app, take_drop. Qed.

Lemma length_thresholded :
  length (thresholded shuffle data k t) = length data.
Proof. apply length_assign_zero. Qed.

Lemma thresholded_dropped p :
  p ∈ drop n_thresh_keep idx →
  data !! p = Some t ∧ thresholded shuffle data k t !! p = Some 0%Qc.
Proof.
  intros Hp.
  assert (data !! p = Some t) as Hdata.
  { apply elem_of_idx, idx_kept_or_dropped. by right. }
  split; [done |].
  apply assign_zero_lookup_in; [done | by eapply lookup_lt_Some].
Qed.

Lemma thresholded_not_dropped p :
  p ∉ drop n_thresh_keep idx →
  thresholded shuffle data k t !! p = data !! p.
Proof. apply assign_zero_lookup_notin. Qed.

(** A position either keeps its entry or held [t] and now holds zero. *)
Lemma thresholded_lookup p v :
  data !! p = Some v →
  thresholded shuffle data k t !! p = Some v ∨
  (v = t ∧ thresholded shuffle data k t !! p = Some 0%Qc).
Proof.
  intros Hp.
  destruct (decide (p ∈ drop n_thresh_keep idx)) as [Hin | Hin].
  - right. apply thresholded_dropped in Hin as [Ht H0].
    split; [congruence | done].
  - left. by rewrite thresholded_not_dropped.
Qed.

Lemma thresholded_other p v :
  data !! p = Some v → v ≠ t → thresholded shuffle data k t !! p = Some v.
Proof. intros Hp Hne. by destruct (thresholded_lookup p v Hp) as [? | [? _]]. Qed.
End tie_break.

(** ** The strict upper triangle *)

Section select.
Context {A : Type}.
Implicit Types (f : nat → bool) (l : list A).

Lemma select_from_split f i l :
  l ≡ₚ select_from f i l ++ select_from (λ p, negb (f p)) i l.
Proof.
  revert i. induction l as [| x l IH]; intros i; [done |].
  simpl. destruct (f i); simpl.
  - by rewrite <-IH.
  - by rewrite <-Permutation_middle, <-IH.
Qed.

Lemma length_select_from f i l :
  length (select_from f i l)
  = length (filter (λ p, f p = true) (seq i (length l))).
Proof.
  revert i. induction l as [| x l IH]; intros i; [done |].
  simpl. rewrite filter_cons. destruct (f i) eqn:Hf.
  - rewrite decide_True by done. simpl. by rewrite IH.
  - rewrite decide_False by done. by rewrite IH.
Qed.

Lemma elem_of_select_from f i l x :
  x ∈ select_from f i l ↔ ∃ q, l !! q = Some x ∧ f (i + q) = true.
Proof.
  revert i. induction l as [| y l IH]; intros i; simpl.
  - split; [by intros ?%not_elem_of_nil | by intros (q & ? & _)].
  - assert (x ∈ select_from f (S i) l ↔
            ∃ q, (y :: l) !! S q = Some x ∧ f (i + S q) = true) as IH'.
    { rewrite IH. by setoid_rewrite Nat.add_succ_r. }
    destruct (f i) eqn:Hf; [rewrite elem_of_cons |]; rewrite IH'; split.
    + intros [-> | (q & ? & ?)]; [| by eauto].
      exists 0. by rewrite Nat.add_0_r.
    + intros ([| q] & Hq & Hfq); [left | right; eauto].
      simpl in Hq. congruence.
    + intros (q & ? & ?). eauto.
    + intros ([| q] & Hq & Hfq); [| eauto].
      rewrite Nat.add_0_r in Hfq. congruence.
Qed.
End select.

Section transpose.
Variables (n p : nat).
Hypothesis Hp : p < n * n.

Lemma transpose_n_pos : 0 < n.
Proof using Hp. destruct n; lia. Qed.

Lemma transpose_row : p / n < n.
Proof using Hp. apply Nat.Div0.div_lt_upper_bound. lia. Qed.

Lemma transpose_col : p `mod` n < n.
Proof using Hp. apply Nat.mod_upper_bound. pose proof transpose_n_pos. lia. Qed.

Lemma transpose_lt : transpose n p < n * n.
Proof using Hp.
  unfold transpose. pose proof transpose_row. pose proof transpose_col. nia.
Qed.

Lemma transpose_div : transpose n p / n = p `mod` n.
Proof using Hp.
  unfold transpose. pose proof transpose_n_pos.
  rewrite Nat.div_add_l by lia.
  rewrite (Nat.div_small (p / n)) by apply transpose_row. lia.
Qed.

Lemma transpose_mod : transpose n p `mod` n = p / n.
Proof using Hp.
  unfold transpose. pose proof transpose_n_pos.
  rewrite Nat.add_comm, Nat.Div0.mod_add.
  apply Nat.mod_small, transpose_row.
Qed.

Lemma transpose_involutive : transpose n (transpose n p) = p.
Proof using Hp.
  unfold transpose at 1. rewrite transpose_div, transpose_mod.
  pose proof (Nat.div_mod_eq p n). lia.
Qed.

Lemma transpose_candidate :
  is_candidate n p = true → is_candidate n (transpose n p) = false.
Proof using Hp.
  unfold is_candidate. rewrite transpose_div, transpose_mod.
  rewrite bool_decide_eq_true, bool_decide_eq_false. lia.
Qed.
End transpose.

(** There are at least as many cells on or below the diagonal as there are
    above it. *)
Lemma candidate_cells_le (n : nat) :
  n_candidates n
  ≤ length (filter (λ p, negb (is_candidate n p) = true) (seq 0 (n * n))).
Proof.
  unfold n_candidates. rewrite <-(length_fmap (transpose n)).
  apply submseteq_length, NoDup_submseteq.
  - apply NoDup_fmap_2_strong; [| apply NoDup_filter, NoDup_seq].
    unfold candidate_cells. intros p q Hp Hq Heq.
    apply list_elem_of_filter in Hp as [_ Hp%elem_of_seq].
    apply list_elem_of_filter in Hq as [_ Hq%elem_of_seq].
    rewrite <-(transpose_involutive n p), <-(transpose_involutive n q) by lia.
    by rewrite Heq.
  - intros q (p & -> & Hp)%list_elem_of_fmap.
    apply list_elem_of_filter in Hp as [Hc Hp%elem_of_seq].
    apply list_elem_of_filter. split.
    + rewrite transpose_candidate by (done || lia). done.
    + apply elem_of_seq. pose proof (transpose_lt n p). lia.
Qed.

Lemma n_candidates_le (n : nat) : n_candidates n ≤ n * n.
Proof.
  unfold n_candidates, candidate_cells.
  etrans; [apply length_filter |]. by rewrite length_seq.
Qed.

(** The number of candidate cells of an [n]×[n] matrix is [n (n - 1) / 2]:
    row [r] has the [n - 1 - r] cells to the right of the diagonal. *)
Lemma row_candidates (n r m : nat) :
  r < n → m ≤ n →
  length (filter (λ p, is_candidate n p = true) (seq (r * n) m)) = m - S r.
Proof.
  intros Hr. induction m as [| m IH]; intros Hle; [done |].
  rewrite seq_S, filter_app, length_app, IH by lia.
  rewrite filter_cons, filter_nil. unfold is_candidate.
  assert ((r * n + m) / n = r) as ->
    by (rewrite Nat.div_add_l, Nat.div_small; lia).
  assert ((r * n + m) `mod` n = m) as ->
    by (rewrite (Nat.add_comm (r * n) m), Nat.Div0.mod_add, Nat.mod_small; lia).
  case_decide as Hc;
    [apply bool_decide_eq_true in Hc | rewrite bool_decide_eq_true in Hc];
    simpl; lia.
Qed.

Lemma rows_candidates (n r : nat) :
  r ≤ n →
  2 * length (filter (λ p, is_candidate n p = true) (seq 0 (r * n)))
  = r * (2 * n - 1 - r).
Proof.
  induction r as [| r IH]; intros Hr; [done |].
  replace (S r * n) with (r * n + n) by lia.
  rewrite seq_app, filter_app, length_app. simpl (0 + _).
  rewrite row_candidates by lia. specialize (IH ltac:(lia)). nia.
Qed.

Lemma n_candidates_closed_form (n : nat) : 2 * n_candidates n = n * (n - 1).
Proof.
  unfold n_candidates, candidate_cells. rewrite rows_candidates by lia. nia.
Qed.

(** [np.triu(M, 1)] establishes the precondition of [threshold_Mtriu]. *)
Lemma np_triu1_upper_triangular (n : nat) (data : list weight) :
  length data = n * n → upper_triangular n (np_triu1 n data).
Proof.
  intros Hlen. unfold np_triu1. split; [by rewrite length_imap |].
  intros p v Hp Hc. rewrite list_lookup_imap in Hp.
  destruct (data !! p) as [x |]; simpl in Hp; [| done].
  rewrite Hc in Hp. congruence.
Qed.

Lemma np_triu1_candidates (n : nat) (data : list weight) (p : nat) :
  is_candidate n p = true → np_triu1 n data !! p = data !! p.
Proof.
  intros Hc. unfold np_triu1. rewrite list_lookup_imap.
  destruct (data !! p); simpl; [by rewrite Hc | done].
Qed.

Section triangle.
Variables (n : nat) (data : list weight).
Hypothesis Hvalid : upper_triangular n data.

Let others := select_from (λ p, negb (is_candidate n p)) 0 data.

Lemma triangle_split : data ≡ₚ candidates n data ++ others.
Proof. apply select_from_split. Qed.

Lemma length_candidates : length (candidates n data) = n_candidates n.
Proof.
  unfold candidates. rewrite length_select_from.
  destruct Hvalid as [-> _]. done.
Qed.

Lemma triangle_others_zero : Forall (λ v, v = 0%Qc) others.
Proof.
  apply Forall_forall. intros v (q & Hq & Hc)%elem_of_select_from.
  destruct Hvalid as [_ Hzero]. apply (Hzero q v Hq).
  simpl in Hc. by apply negb_true_iff in Hc.
Qed.

Lemma triangle_others_length : n_candidates n ≤ length others.
Proof.
  unfold others. rewrite length_select_from.
  destruct Hvalid as [-> _]. apply candidate_cells_le.
Qed.

Lemma elem_of_candidates v :
  v ∈ candidates n data ↔ ∃ p, data !! p = Some v ∧ is_candidate n p = true.
Proof. unfold candidates. by rewrite elem_of_select_from. Qed.

(** A property that zero does not have is counted on the candidates. *)
Lemma count_candidates (P : weight → Prop) `{!∀ x, Decision (P x)} :
  ¬ P 0%Qc → count P data = count P (candidates n data).
Proof.
  intros HP. rewrite (count_perm _ _ _ triangle_split), count_app.
  rewrite (count_none _ others); [lia |].
  eapply Forall_impl; [apply triangle_others_zero |].
  by intros v ->.
Qed.

(** A property that zero has holds on at least as many entries as there
    are candidates, outside the candidates. *)
Lemma count_others (P : weight → Prop) `{!∀ x, Decision (P x)} :
  P 0%Qc → count P (candidates n data) + n_candidates n ≤ count P data.
Proof.
  intros HP. rewrite (count_perm _ _ _ triangle_split), count_app.
  rewrite (count_all _ others).
  - pose proof triangle_others_length. lia.
  - eapply Forall_impl; [apply triangle_others_zero |].
    by intros v ->.
Qed.
End triangle.

(** ** Calls with a valid keep count *)

Lemma candidates_exist (n : nat) : 2 ≤ n → 1 ≤ n_candidates n.
Proof.
  intros Hn. unfold n_candidates.
  assert (1 ∈ candidate_cells n) as Hin.
  { apply list_elem_of_filter. split; [| apply elem_of_seq; nia].
    unfold is_candidate. apply bool_decide_eq_true.
    rewrite Nat.div_small, Nat.mod_small by lia. lia. }
  destruct (candidate_cells n); [by apply not_elem_of_nil in Hin | simpl; lia].
Qed.

Section valid_call.
Variables (n : nat) (data : list weight) (k : Z).
Hypothesis Hvalid : upper_triangular n data.
Hypothesis Hk : (1 ≤ k ≤ Z.of_nat (n_candidates n))%Z.

Lemma valid_k_le_length : (k ≤ Z.of_nat (length data))%Z.
Proof.
  destruct Hvalid as [-> _]. pose proof (n_candidates_le n). lia.
Qed.

Lemma valid_position :
  py_position (length data) (- k) = Some (length data - Z.to_nat k).
Proof.
  pose proof valid_k_le_length.
  rewrite <-(Z2Nat.id k) at 1 by lia. apply py_position_from_end. lia.
Qed.

Lemma valid_thresh_is_Some : is_Some (thresh_of data k).
Proof. apply thresh_of_is_Some. pose proof valid_k_le_length. lia. Qed.

Lemma valid_thresh_sorted t :
  thresh_of data k = Some t →
  np_sort data !! (length data - Z.to_nat k) = Some t.
Proof.
  intros (j & Hpos & Hj)%thresh_of_Some.
  rewrite valid_position in Hpos. by simplify_eq.
Qed.

(** Fewer than [k] entries are above the threshold. *)
Lemma valid_above_lt t :
  thresh_of data k = Some t →
  (Z.of_nat (count (λ v, (t < v)%Qc) data) < k)%Z.
Proof.
  intros Ht%valid_thresh_sorted.
  pose proof (rank_keep_split _ _ _ Ht).
  pose proof (rank_ties_pos _ _ _ Ht).
  pose proof valid_k_le_length. lia.
Qed.

(** At least [k] entries are at or above the threshold. *)
Lemma valid_below_le t :
  thresh_of data k = Some t →
  (Z.of_nat (count (λ v, (v < t)%Qc) data) ≤ Z.of_nat (length data) - k)%Z.
Proof.
  intros Ht%valid_thresh_sorted.
  pose proof (rank_below _ _ _ Ht).
  pose proof valid_k_le_length. lia.
Qed.

(** The cells on and below the diagonal hold zero and outnumber [k]: the
    threshold is never negative. *)
Lemma valid_thresh_nonneg t : thresh_of data k = Some t → (0 ≤ t)%Qc.
Proof.
  intros Ht. apply Qcnot_lt_le. intros Hneg.
  pose proof (valid_above_lt t Ht) as Habove.
  pose proof (count_others n data Hvalid (λ v, (t < v)%Qc) Hneg). lia.
Qed.
End valid_call.

(** ** Counting after the assignment *)

Lemma count_insert (P : weight → Prop) `{!∀ x, Decision (P x)}
    (a : list weight) (p : nat) (x y : weight) :
  a !! p = Some x → P x → ¬ P y →
  count P (<[p := y]> a) + 1 = count P a.
Proof.
  intros Hp Hx Hy.
  pose proof (lookup_lt_Some _ _ _ Hp) as Hlt.
  rewrite insert_take_drop by done.
  rewrite <-(take_drop_middle a p x Hp) at 3.
  rewrite !count_app. unfold count.
  rewrite (filter_cons_False _ y), (filter_cons_True _ x) by done.
  simpl. lia.
Qed.

Lemma count_assign_zero (P : weight → Prop) `{!∀ x, Decision (P x)}
    (I : list nat) (a : list weight) (t : weight) :
  NoDup I → (∀ p, p ∈ I → a !! p = Some t) → P t → ¬ P 0%Qc →
  count P (assign_zero I a) + length I = count P a.
Proof.
  intros Hnd Hin Ht H0. induction Hnd as [| q I Hq Hnd IH]; [simpl; lia |].
  simpl.
  assert (count P (assign_zero I a) + length I = count P a) as IH'.
  { apply IH. intros p Hp. apply Hin. by right. }
  assert (assign_zero I a !! q = Some t) as Hq'.
  { rewrite assign_zero_lookup_notin by done. apply Hin. by left. }
  pose proof (count_insert P _ _ _ 0%Qc Hq' Ht H0). lia.
Qed.

Section tie_break_count.
Variables (shuffle : list nat → list nat) (data : list weight).
Variables (k : Z) (j : nat) (t : weight).
Hypothesis Hshuffle : is_shuffle shuffle.
Hypothesis Hpos : py_position (length data) (- k) = Some j.
Hypothesis Hj : np_sort data !! j = Some t.

(** A property that the threshold has and that zero does not have is
    lost at exactly the surplus tied positions. *)
Lemma count_thresholded (P : weight → Prop) `{!∀ x, Decision (P x)} :
  P t → ¬ P 0%Qc →
  count P (thresholded shuffle data k t) + count (λ v, v = t) data
  = count P data + n_thresh_keep_of data k t.
Proof.
  intros Ht H0.
  pose proof (n_thresh_keep_le shuffle data k j t Hshuffle Hpos) as Hle.
  pose proof (length_idx shuffle data t Hshuffle) as Hlen.
  pose proof (count_assign_zero P
    (drop (n_thresh_keep_of data k t) (shuffle (np_argwhere_eq data t)))
    data t) as Hcount.
  rewrite length_drop in Hcount. unfold thresholded.
  assert (NoDup (drop (n_thresh_keep_of data k t)
                   (shuffle (np_argwhere_eq data t)))) as Hnd.
  { eapply sublist_NoDup; [| apply sublist_drop].
    apply (NoDup_idx shuffle data t Hshuffle). }
  specialize (Hcount Hnd). rewrite <-Hcount; [lia | | done | done].
  intros p Hp. apply (elem_of_idx shuffle data t Hshuffle).
  by eapply subseteq_drop.
Qed.
End tie_break_count.

Lemma upper_triangularb_correct (n : nat) (data : list weight) :
  upper_triangularb n data = true → upper_triangular n data.
Proof.
  unfold upper_triangularb. intros [Hlen Hall]%andb_true_iff.
  apply bool_decide_eq_true in Hlen. split; [done |].
  intros p v Hp Hc. rewrite forallb_forall in Hall.
  specialize (Hall p). rewrite Hc in Hall. simpl in Hall.
  assert (bool_decide (data !! p = Some 0%Qc) = true) as H0.
  { apply Hall, list_elem_of_In, elem_of_seq.
    apply lookup_lt_Some in Hp. lia. }
  apply bool_decide_eq_true in H0. congruence.
Qed.

Lemma valid_call_setup shuffle s M n data k :
  valid_input s M n data → (1 ≤ k ≤ Z.of_nat (n_candidates n))%Z →
  ∃ t, thresh_of data k = Some t ∧
       py_position (length data) (- k) = Some (length data - Z.to_nat k) ∧
       np_sort data !! (length data - Z.to_nat k) = Some t ∧
       result_of shuffle M k s = Some (thresholded shuffle data k t) ∧
       (0 ≤ t)%Qc.
Proof.
  intros (_ & Hdata & Hvalid) Hk.
  destruct (valid_thresh_is_Some n data k Hvalid Hk) as [t Ht].
  exists t. split_and!; [done | | | |].
  - by apply (valid_position n).
  - by apply (valid_thresh_sorted n).
  - by apply result_of_returns.
  - by apply (valid_thresh_nonneg n data k).
Qed.

(** ** The k-th largest value *)

Lemma kth_largest_sorted (k : nat) (l : list weight) :
  1 ≤ k ≤ length l → kth_largest k l = np_sort l !! (length l - k).
Proof.
  intros Hk. destruct k as [| k']; [lia |]. simpl.
  rewrite reverse_lookup by (rewrite length_np_sort; lia).
  by rewrite length_np_sort.
Qed.

Lemma count_at_least (t : weight) (l : list weight) :
  count (λ v, ¬ (v < t)%Qc) l
  = count (λ v, v = t) l + count (λ v, (t < v)%Qc) l.
Proof.
  pose proof (count_trichotomy t l).
  pose proof (count_complement (λ v, (v < t)%Qc) l). lia.
Qed.

(** The value at a position of the sorted list is determined by its rank:
    two values with fewer than [k] entries above them and at most
    [len - k] entries below them, one in each of two lists that agree on
    the counts that matter, are equal.  Stated here for the candidates of
    an upper-triangular matrix whose candidates are not negative. *)
Section kth_largest_candidates.
Variables (n : nat) (data : list weight) (k : Z).
Hypothesis Hvalid : upper_triangular n data.
Hypothesis Hk : (1 ≤ k ≤ Z.of_nat (n_candidates n))%Z.
Hypothesis Hnonneg : Forall (λ v, (0 ≤ v)%Qc) (candidates n data).

Lemma kth_largest_candidates_is_Some :
  is_Some (kth_largest (Z.to_nat k) (candidates n data)).
Proof.
  pose proof (length_candidates n data Hvalid) as Hlen.
  rewrite kth_largest_sorted by lia.
  apply lookup_lt_is_Some. rewrite length_np_sort. lia.
Qed.

Lemma thresh_kth_largest_candidates t :
  thresh_of data k = Some t →
  kth_largest (Z.to_nat k) (candidates n data) = Some t.
Proof.
  intros Ht.
  pose proof (length_candidates n data Hvalid) as Hlen.
  destruct kth_largest_candidates_is_Some as [t' Ht'].
  rewrite Ht'. f_equal.
  rewrite kth_largest_sorted in Ht' by lia.
  pose proof (rank_keep_split _ _ _ Ht') as Hsplit'.
  pose proof (rank_ties_pos _ _ _ Ht') as Hties'.
  pose proof (rank_below _ _ _ Ht') as Hbelow'.
  pose proof (rank_thresh_in _ _ _ Ht') as Hin'.
  assert (0 ≤ t')%Qc as Hnonneg'.
  { rewrite Forall_forall in Hnonneg. by apply Hnonneg. }
  pose proof (valid_above_lt n data k Hvalid Hk t Ht) as Habove.
  pose proof (valid_below_le n data k Hvalid Hk t Ht) as Hbelow.
  pose proof (valid_thresh_nonneg n data k Hvalid Hk t Ht) as Hnonneg_t.
  destruct (Qc_trichotomy t t') as [Hlt | [-> | Hlt]]; [| done |]; exfalso.
  - (* [t < t']: the candidates from [t'] up are all above [t] *)
    rewrite (count_candidates n data Hvalid (λ v, (t < v)%Qc)) in Habove
      by (intros ?; qc_absurd).
    pose proof (count_complement (λ v, (v < t')%Qc) (candidates n data)) as Hc.
    assert (count (λ v, ¬ (v < t')%Qc) (candidates n data)
            ≤ count (λ v, (t < v)%Qc) (candidates n data)) as Hm; [| lia].
    apply count_mono. intros v _ Hv.
    apply Qcnot_lt_le in Hv. by eapply Qclt_le_trans.
  - (* [t' < t]: the entries from [t] up are candidates above [t'] *)
    pose proof (count_complement (λ v, (v < t)%Qc) data) as Hc.
    rewrite (count_candidates n data Hvalid (λ v, ¬ (v < t)%Qc)) in Hc.
    + assert (count (λ v, ¬ (v < t)%Qc) (candidates n data)
              ≤ count (λ v, (t' < v)%Qc) (candidates n data)) as Hm; [| lia].
      apply count_mono. intros v _ Hv.
      apply Qcnot_lt_le in Hv. by eapply Qclt_le_trans.
    + intros H0. apply H0. exact (Qcle_lt_trans _ _ _ Hnonneg' Hlt).
Qed.
End kth_largest_candidates.

(** ** Results that are the input *)

Lemma thresholded_zero_thresh shuffle data k j t :
  is_shuffle shuffle →
  py_position (length data) (- k) = Some j → np_sort data !! j = Some t →
  t = 0%Qc → thresholded shuffle data k t = data.
Proof.
  intros Hsh Hpos Hj ->. apply list_eq. intros p.
  destruct (data !! p) as [v |] eqn:Hp.
  - destruct (thresholded_lookup shuffle data k 0%Qc Hsh p v Hp)
      as [H | [-> H]]; done.
  - apply lookup_ge_None. rewrite (length_thresholded shuffle data k 0%Qc).
    by apply lookup_ge_None.
Qed.

Lemma thresholded_all_kept shuffle data k j t :
  is_shuffle shuffle →
  py_position (length data) (- k) = Some j → np_sort data !! j = Some t →
  count (λ v, ¬ (v < t)%Qc) data = length data - j →
  thresholded shuffle data k t = data.
Proof.
  intros Hsh Hpos Hj Hcount. unfold thresholded.
  rewrite drop_ge; [done |].
  rewrite (length_idx shuffle data t Hsh).
  pose proof (n_thresh_keep_above data k j t Hpos Hj).
  pose proof (count_at_least t data). lia.
Qed.

Lemma triangle_length_split (n : nat) (data : list weight) :
  upper_triangular n data →
  ∀ (P : weight → Prop) `{!∀ x, Decision (P x)},
    P 0%Qc →
    count P (candidates n data) + (length data - n_candidates n) = count P data.
Proof.
  intros Hvalid P ? HP.
  pose proof (triangle_split n data) as Hsplit.
  pose proof (triangle_others_zero n data Hvalid) as Hzero.
  pose proof (length_candidates n data Hvalid) as Hlen.
  rewrite (count_perm _ _ _ Hsplit), count_app, (count_all P (select_from _ _ _)).
  - apply Permutation_length in Hsplit. rewrite length_app in Hsplit. lia.
  - eapply Forall_impl; [apply Hzero |]. by intros v ->.
Qed.

Lemma minimum_spec (l : list weight) (m : weight) :
  minimum l = Some m → m ∈ l ∧ Forall (λ v, (m ≤ v)%Qc) l.
Proof.
  unfold minimum. rewrite head_lookup. intros Hm. split.
  - by apply (rank_thresh_in l 0).
  - pose proof (rank_keep_ge l 0 m Hm) as Hge. rewrite drop_0 in Hge.
    by rewrite np_sort_perm in Hge.
Qed.

Lemma minimum_kth_largest (l : list weight) :
  1 ≤ length l → minimum l = kth_largest (length l) l.
Proof.
  intros Hl. rewrite kth_largest_sorted by lia.
  unfold minimum. rewrite head_lookup. f_equal. lia.
Qed.

(** ** A positive threshold *)

(** With a positive threshold, the entries at or above it in the result are
    the kept ones. *)
Lemma positive_thresh_count shuffle s M n data k thresh :
  valid_input s M n data → (1 ≤ k ≤ Z.of_nat (n_candidates n))%Z →
  is_shuffle shuffle →
  thresh_of data k = Some thresh → (0 < thresh)%Qc →
  ∃ res,
    result_of shuffle M k s = Some res ∧
    upper_triangular n res ∧
    Z.of_nat (count (λ v, (thresh ≤ v)%Qc) res) = k ∧
    Z.of_nat (count (λ v, (thresh ≤ v)%Qc) (candidates n res)) = k ∧
    (∀ p v, res !! p = Some v → (thresh ≤ v)%Qc →
            data !! p = Some v ∧ v ≠ 0%Qc ∧ is_candidate n p = true).
Proof.
  intros Hin Hk Hsh Ht Hpos_t.
  destruct (valid_call_setup shuffle s M n data k Hin Hk)
    as (t & Ht' & Hpos & Hj & Hres & _).
  assert (t = thresh) as -> by congruence. clear Ht'.
  destruct Hin as (_ & Hdata & Hvalid).
  pose proof (valid_k_le_length n data k Hvalid Hk) as Hle.
  remember (thresholded shuffle data k thresh) as res eqn:Hres_eq.
  assert (∀ p v, res !! p = Some v → v ≠ 0%Qc → data !! p = Some v) as Hkeep.
  { intros p v Hv Hv0.
    assert (is_Some (data !! p)) as [v' Hv'].
    { apply lookup_lt_is_Some.
      rewrite <-(length_thresholded shuffle data k thresh), <-Hres_eq.
      by eapply lookup_lt_Some. }
    destruct (thresholded_lookup shuffle data k thresh Hsh p v' Hv')
      as [H | [_ H]]; rewrite <-Hres_eq in H; congruence. }
  assert (upper_triangular n res) as Hres_valid.
  { destruct Hvalid as [Hlen Hzero]. split.
    - by rewrite Hres_eq, length_thresholded.
    - intros p v Hv Hc. destruct (decide (v = 0%Qc)) as [| Hne]; [done |].
      apply (Hzero p v); [by apply Hkeep | done]. }
  assert (¬ (thresh ≤ 0)%Qc) as Hnot0 by (intros ?; qc_absurd).
  assert (Z.of_nat (count (λ v, (thresh ≤ v)%Qc) res) = k) as Hcount.
  { pose proof (count_thresholded shuffle data k _ thresh Hsh Hpos
                  (λ v, (thresh ≤ v)%Qc) (Qcle_refl _) Hnot0) as Hc.
    rewrite <-Hres_eq in Hc.
    pose proof (n_thresh_keep_above data k _ thresh Hpos Hj) as Habove.
    pose proof (count_at_least thresh data) as Hat.
    rewrite (count_ext (λ v, ¬ (v < thresh)%Qc) (λ v, (thresh ≤ v)%Qc)) in Hat.
    - lia.
    - intros v _. split; [apply Qcnot_lt_le | apply Qcle_not_lt]. }
  exists res. split_and!; [done | done | done | |].
  - by rewrite <-(count_candidates n res Hres_valid).
  - intros p v Hv Hge.
    assert (v ≠ 0%Qc) as Hv0 by (intros ->; qc_absurd).
    split_and!; [by apply Hkeep | done |].
    destruct (is_candidate n p) eqn:Hc; [done |].
    destruct Hres_valid as [_ Hzero]. by destruct (Hv0 (Hzero p v Hv Hc)).
Qed.

(** The threshold is positive exactly when at least [k] candidates are. *)
Lemma valid_thresh_pos_iff n data k t :
  upper_triangular n data → (1 ≤ k ≤ Z.of_nat (n_candidates n))%Z →
  thresh_of data k = Some t →
  (0 < t)%Qc ↔ (k ≤ Z.of_nat (count (λ v, (0 < v)%Qc) (candidates n data)))%Z.
Proof.
  intros Hvalid Hk Ht.
  rewrite <-(count_candidates n data Hvalid (λ v, (0 < v)%Qc))
    by apply Qc_lt_irrefl.
  split.
  - intros Hpos_t.
    pose proof (valid_below_le n data k Hvalid Hk t Ht).
    pose proof (valid_k_le_length n data k Hvalid Hk).
    pose proof (count_complement (λ v, (v < t)%Qc) data).
    assert (count (λ v, ¬ (v < t)%Qc) data ≤ count (λ v, (0 < v)%Qc) data)
      as Hm; [| lia].
    apply count_mono. intros v _ Hv.
    apply Qcnot_lt_le in Hv. by eapply Qclt_le_trans.
  - intros Hcount.
    pose proof (valid_thresh_nonneg n data k Hvalid Hk t Ht) as Hnonneg.
    apply Qc_le_lteq in Hnonneg as [| <-]; [done | exfalso].
    pose proof (valid_above_lt n data k Hvalid Hk _ Ht). lia.
Qed.

(** ** Keeping every candidate *)

Section keep_all.
Variables (n : nat) (data : list weight) (k : Z) (j : nat) (t : weight).
Hypothesis Hvalid : upper_triangular n data.
Hypothesis Hn : 1 ≤ n.
Hypothesis Hk : k = Z.of_nat (n_candidates n).
Hypothesis Hpos : py_position (length data) (- k) = Some j.
Hypothesis Hj : np_sort data !! j = Some t.

Lemma keep_all_thresh_of : thresh_of data k = Some t.
Proof.
  unfold thresh_of. rewrite py_index_position, length_np_sort, Hpos. done.
Qed.

(** Either the threshold is zero, or every entry at or above it is kept. *)
Lemma keep_all_cases :
  t = 0%Qc ∨ count (λ v, ¬ (v < t)%Qc) data = length data - j.
Proof.
  destruct (decide (n = 1)) as [-> | Hn1].
  - left. pose proof (rank_thresh_in data j t Hj) as Hin.
    apply list_elem_of_lookup in Hin as [p Hp].
    destruct Hvalid as [Hlen Hzero]. apply (Hzero p t Hp).
    apply lookup_lt_Some in Hp. assert (p = 0) as -> by lia. done.
  - assert (1 ≤ k ≤ Z.of_nat (n_candidates n))%Z as Hk'.
    { pose proof (candidates_exist n). lia. }
    pose proof keep_all_thresh_of as Ht.
    pose proof (valid_thresh_nonneg n data k Hvalid Hk' t Ht) as Hnonneg.
    destruct (decide (t = 0%Qc)) as [| Hne]; [by left | right].
    assert (0 < t)%Qc as Hpos_t.
    { apply Qc_le_lteq in Hnonneg as [| <-]; done. }
    pose proof (valid_position n data k Hvalid Hk') as Hpos'.
    assert (j = length data - Z.to_nat k) as Hj_eq by congruence.
    pose proof (valid_k_le_length n data k Hvalid Hk').
    pose proof (valid_below_le n data k Hvalid Hk' t Ht).
    pose proof (count_complement (λ v, (v < t)%Qc) data).
    pose proof (count_candidates n data Hvalid (λ v, ¬ (v < t)%Qc)) as Hc.
    specialize (Hc (λ H0, H0 Hpos_t)).
    pose proof (count_le_length (λ v, ¬ (v < t)%Qc) (candidates n data)).
    pose proof (length_candidates n data Hvalid). lia.
Qed.

Lemma keep_all_unchanged shuffle :
  is_shuffle shuffle → thresholded shuffle data k t = data.
Proof.
  intros Hsh. destruct keep_all_cases as [H0 | Hcount].
  - by apply (thresholded_zero_thresh shuffle data k j t).
  - by apply (thresholded_all_kept shuffle data k j t).
Qed.

(** The threshold is the smallest candidate when that one is not
    negative, and zero when it is not positive. *)
Lemma keep_all_thresh_minimum m :
  minimum (candidates n data) = Some m →
  ((0 ≤ m)%Qc → t = m) ∧ ((m ≤ 0)%Qc → t = 0%Qc).
Proof.
  intros Hm. pose proof (minimum_spec _ _ Hm) as [Hin Hall].
  pose proof (length_candidates n data Hvalid) as Hlen.
  assert (1 ≤ length (candidates n data)) as Hlen1.
  { destruct (candidates n data); [by apply not_elem_of_nil in Hin | simpl; lia]. }
  assert (1 ≤ k ≤ Z.of_nat (n_candidates n))%Z as Hk' by lia.
  pose proof keep_all_thresh_of as Ht.
  pose proof (valid_thresh_nonneg n data k Hvalid Hk' t Ht) as Hnonneg.
  assert ((0 ≤ m)%Qc → t = m) as Hfirst.
  { intros Hm0.
    assert (Forall (λ v, (0 ≤ v)%Qc) (candidates n data)) as Hcand.
    { eapply Forall_impl; [apply Hall |]. intros v Hv. simpl in *.
      by apply Qcle_trans with m. }
    pose proof (thresh_kth_largest_candidates n data k Hvalid Hk' Hcand t Ht)
      as Hkth.
    rewrite minimum_kth_largest in Hm by done.
    rewrite Hk, Nat2Z.id, <-Hlen in Hkth. congruence. }
  split; [done |].
  intros Hm0. apply Qc_le_lteq in Hm0 as [Hneg | ->].
  - destruct (decide (t = 0%Qc)) as [| Hne]; [done | exfalso].
    assert (0 < t)%Qc as Hpos_t.
    { apply Qc_le_lteq in Hnonneg as [| <-]; done. }
    pose proof (triangle_length_split n data Hvalid (λ v, (v < t)%Qc) Hpos_t).
    pose proof (valid_below_le n data k Hvalid Hk' t Ht).
    pose proof (valid_k_le_length n data k Hvalid Hk').
    pose proof (count_pos (λ v, (v < t)%Qc) (candidates n data) m Hin
                  (Qclt_trans _ _ _ Hneg Hpos_t)).
    lia.
  - apply Hfirst, Qcle_refl.
Qed.
End keep_all.

(** ** The file writers *)

(** [os] is not a name of the module, so the test of both writers raises
    before it looks at the file system. *)
Lemma os_not_bound : lookup_global "os" = inl NameError.
Proof. reflexivity. Qed.

Lemma os_path_exists_raises fs path : os_path_exists fs path = inl NameError.
Proof. reflexivity. Qed.

(** * The claims *)

(** C1, as the code has it.  For a valid input matrix and a valid [k] such
    that at least [k] candidates are positive, the threshold is positive
    and exactly [k] entries of the result are at or above it, whatever the
    shuffle; they are in candidate cells, are not zero and are the input
    entries.  The result is again zero on and below the diagonal.  (The
    entries below the threshold are not part of this statement.) *)
Theorem C1_exactly_k_at_or_above shuffle s M n data k :
  valid_input s M n data → (1 ≤ k ≤ Z.of_nat (n_candidates n))%Z →
  is_shuffle shuffle →
  (k ≤ Z.of_nat (count (λ v, (0 < v)%Qc) (candidates n data)))%Z →
  ∃ thresh res,
    thresh_of data k = Some thresh ∧ (0 < thresh)%Qc ∧
    result_of shuffle M k s = Some res ∧
    upper_triangular n res ∧
    Z.of_nat (count (λ v, (thresh ≤ v)%Qc) res) = k ∧
    Z.of_nat (count (λ v, (thresh ≤ v)%Qc) (candidates n res)) = k ∧
    (∀ p v, res !! p = Some v → (thresh ≤ v)%Qc →
            data !! p = Some v ∧ v ≠ 0%Qc ∧ is_candidate n p = true).
Proof.
  intros Hin Hk Hsh Hpositive.
  pose proof Hin as (_ & _ & Hvalid).
  destruct (valid_thresh_is_Some n data k Hvalid Hk) as [t Ht].
  assert (0 < t)%Qc as Hpos_t by by apply (valid_thresh_pos_iff n data k).
  destruct (positive_thresh_count shuffle s M n data k t Hin Hk Hsh Ht Hpos_t)
    as (res & Hres & Htri & Hcount & Hcand & Hkept).
  by exists t, res.
Qed.

Lemma C1_witness :
  ∃ thresh res,
    thresh_of sample_ties 2 = Some thresh ∧ (0 < thresh)%Qc ∧
    result_of reverse sample_M 2 (sample_state sample_ties) = Some res ∧
    upper_triangular 3 res ∧
    Z.of_nat (count (λ v, (thresh ≤ v)%Qc) res) = 2%Z ∧
    Z.of_nat (count (λ v, (thresh ≤ v)%Qc) (candidates 3 res)) = 2%Z ∧
    (∀ p v, res !! p = Some v → (thresh ≤ v)%Qc →
            sample_ties !! p = Some v ∧ v ≠ 0%Qc ∧ is_candidate 3 p = true).
Proof.
  apply (C1_exactly_k_at_or_above reverse (sample_state sample_ties) sample_M 3
           sample_ties 2).
  - split_and!; [reflexivity | reflexivity |].
    apply upper_triangularb_correct. vm_compute. reflexivity.
  - vm_compute. split; discriminate.
  - intros l. apply reverse_Permutation.
  - vm_compute. discriminate.
Defined.

(** C1, as stated, fails: [[0,0,7],[0,0,0],[0,0,0]] has three candidate
    cells and one candidate that is not zero; with [k = 2] the result has
    one entry that is not zero among the candidate cells. *)
Lemma C1_counterexample :
  result_of id sample_M 2 (sample_state sample_sparse) = Some sample_sparse ∧
  count (λ v, v ≠ 0%Qc) (candidates 3 sample_sparse) = 1 ∧
  ¬ (valid_input (sample_state sample_sparse) sample_M 3 sample_sparse →
     (1 ≤ 2 ≤ Z.of_nat (n_candidates 3))%Z → is_shuffle id →
     ∃ res,
       result_of id sample_M 2 (sample_state sample_sparse) = Some res ∧
       Z.of_nat (count (λ v, v ≠ 0%Qc) (candidates 3 res)) = 2%Z).
Proof.
  split_and!; [reflexivity | reflexivity |].
  intros Hclaim. destruct Hclaim as (res & Hres & Hcount).
  - split_and!; [reflexivity | reflexivity |].
    apply upper_triangularb_correct. vm_compute. reflexivity.
  - vm_compute. split; discriminate.
  - intros l. reflexivity.
  - vm_compute in Hres. injection Hres as <-.
    vm_compute in Hcount. discriminate.
Qed.

(** C2 on the code.  On [[0,1,2],[0,0,3],[0,0,0]] with [k = 2] the
    threshold is [2]; the entry [1] at position 1 is strictly below it and
    is still [1] in the result: the function sets to zero only surplus
    entries equal to the threshold. *)
Lemma C2_below_thresh_not_zeroed :
  valid_input (sample_state sample_distinct) sample_M 3 sample_distinct ∧
  (1 ≤ 2 ≤ Z.of_nat (n_candidates 3))%Z ∧
  thresh_of sample_distinct 2 = Some (w 2) ∧
  sample_distinct !! 1 = Some (w 1) ∧ (w 1 < w 2)%Qc ∧
  result_of id sample_M 2 (sample_state sample_distinct) = Some sample_distinct ∧
  result_of reverse sample_M 2 (sample_state sample_distinct) = Some sample_distinct ∧
  w 1 ≠ 0%Qc.
Proof.
  split_and!; try reflexivity; try (vm_compute; discriminate).
  - split_and!; [reflexivity | reflexivity |].
    apply upper_triangularb_correct. vm_compute. reflexivity.
Qed.

(** C3, as the code has it.  The threshold is the [k]-th largest value
    among all the entries of the flattened matrix, the zeros on and below
    the diagonal included: fewer than [k] entries are above it and at least
    [k] are at or above it.  When no candidate is negative, it is the
    [k]-th largest value among the candidates.  It is the value that the
    call prints. *)
Theorem C3_thresh_kth_largest shuffle s M n data k :
  valid_input s M n data → (1 ≤ k ≤ Z.of_nat (n_candidates n))%Z →
  ∃ thresh,
    thresh_of data k = Some thresh ∧
    line_thresh thresh ∈ stdout (threshold_Mtriu shuffle M k s).1 ∧
    kth_largest (Z.to_nat k) data = Some thresh ∧
    (Z.of_nat (count (λ v, (thresh < v)%Qc) data) < k
     ≤ Z.of_nat (count (λ v, ¬ (v < thresh)%Qc) data))%Z ∧
    (Forall (λ v, (0 ≤ v)%Qc) (candidates n data) →
     kth_largest (Z.to_nat k) (candidates n data) = Some thresh).
Proof.
  intros Hin Hk.
  destruct (valid_call_setup shuffle s M n data k Hin Hk)
    as (t & Ht & Hpos & Hj & Hres & Hnonneg).
  destruct Hin as (_ & Hdata & Hvalid).
  pose proof (valid_k_le_length n data k Hvalid Hk) as Hle.
  exists t. split_and!; [done | | | | |].
  - rewrite (threshold_Mtriu_returns shuffle M k s data t Hdata Ht). simpl.
    apply elem_of_app. right. unfold printed.
    do 2 right. left.
  - rewrite kth_largest_sorted by lia. rewrite <-Hj. f_equal.
  - by apply (valid_above_lt n data k).
  - pose proof (valid_below_le n data k Hvalid Hk t Ht).
    pose proof (count_complement (λ v, (v < t)%Qc) data). lia.
  - intros Hcand. by apply (thresh_kth_largest_candidates n data k).
Qed.

Lemma C3_witness :
  ∃ thresh,
    thresh_of sample_distinct 2 = Some thresh ∧
    line_thresh thresh
      ∈ stdout (threshold_Mtriu reverse sample_M 2 (sample_state sample_distinct)).1 ∧
    kth_largest (Z.to_nat 2) sample_distinct = Some thresh ∧
    (Z.of_nat (count (λ v, (thresh < v)%Qc) sample_distinct) < 2
     ≤ Z.of_nat (count (λ v, ¬ (v < thresh)%Qc) sample_distinct))%Z ∧
    (Forall (λ v, (0 ≤ v)%Qc) (candidates 3 sample_distinct) →
     kth_largest (Z.to_nat 2) (candidates 3 sample_distinct) = Some thresh).
Proof.
  apply (C3_thresh_kth_largest reverse (sample_state sample_distinct) sample_M 3).
  - split_and!; [reflexivity | reflexivity |].
    apply upper_triangularb_correct. vm_compute. reflexivity.
  - vm_compute. split; discriminate.
Defined.

(** C3, as stated, fails: on [[0,-1],[0,0]] with [k = 1] the only
    candidate is [-1], and the threshold is the [0] of a cell that is not a
    candidate. *)
Lemma C3_counterexample :
  candidates 2 sample_negative = [w (-1)] ∧
  kth_largest 1 (candidates 2 sample_negative) = Some (w (-1)) ∧
  thresh_of sample_negative 1 = Some (w 0) ∧
  ¬ (valid_input (sample_state sample_negative) sample_M2 2 sample_negative →
     (1 ≤ 1 ≤ Z.of_nat (n_candidates 2))%Z →
     ∃ thresh,
       thresh_of sample_negative 1 = Some thresh ∧
       kth_largest (Z.to_nat 1) (candidates 2 sample_negative) = Some thresh).
Proof.
  split_and!; [reflexivity | reflexivity | reflexivity |].
  intros Hclaim. destruct Hclaim as (thresh & Hthresh & Hkth).
  - split_and!; [reflexivity | reflexivity |].
    apply upper_triangularb_correct. vm_compute. reflexivity.
  - vm_compute. split; discriminate.
  - vm_compute in Hthresh, Hkth. injection Hthresh as <-. discriminate.
Qed.

(** C4. For every valid input matrix and valid [k], and every outcome of
    the shuffle, the positions that hold the threshold split into the kept
    ones, which are [k] minus the number of entries strictly above the
    threshold and keep their entry, and the others, which are set to zero.
    When the threshold is not zero, exactly that many entries of the result
    hold it. *)
Theorem C4_ties_kept shuffle s M n data k :
  valid_input s M n data → (1 ≤ k ≤ Z.of_nat (n_candidates n))%Z →
  is_shuffle shuffle →
  ∃ thresh res,
    thresh_of data k = Some thresh ∧
    result_of shuffle M k s = Some res ∧
    let kept := kept_positions shuffle data k thresh in
    let dropped := dropped_positions shuffle data k thresh in
    let above := count (λ v, (thresh < v)%Qc) data in
    kept ++ dropped ≡ₚ np_argwhere_eq data thresh ∧
    Z.of_nat (length kept) = (k - Z.of_nat above)%Z ∧
    (∀ p, p ∈ kept → res !! p = Some thresh) ∧
    (∀ p, p ∈ dropped → res !! p = Some 0%Qc) ∧
    (thresh ≠ 0%Qc →
     Z.of_nat (count (λ v, v = thresh) res) = (k - Z.of_nat above)%Z).
Proof.
  intros Hin Hk Hsh.
  destruct (valid_call_setup shuffle s M n data k Hin Hk)
    as (t & Ht & Hpos & Hj & Hres & Hnonneg).
  destruct Hin as (_ & _ & Hvalid).
  pose proof (valid_k_le_length n data k Hvalid Hk) as Hle.
  pose proof (n_thresh_keep_above data k _ t Hpos Hj) as Habove.
  exists t, (thresholded shuffle data k t). split_and!; [done | done |].
  unfold kept_positions, dropped_positions. simpl. split_and!.
  - by rewrite take_drop.
  - rewrite (length_kept shuffle data k _ t Hsh Hpos). lia.
  - intros p Hp.
    rewrite (thresholded_not_dropped shuffle data k t).
    + apply (elem_of_idx shuffle data t Hsh).
      apply (idx_kept_or_dropped shuffle data k t). by left.
    + by apply (kept_not_dropped shuffle data k t Hsh).
  - intros p Hp. by apply (thresholded_dropped shuffle data k t Hsh).
  - intros Hne.
    pose proof (count_thresholded shuffle data k _ t Hsh Hpos (λ v, v = t)
                  eq_refl) as Hcount.
    specialize (Hcount (λ H0, Hne (eq_sym H0))). lia.
Qed.

Lemma C4_witness :
  ∃ thresh res,
    thresh_of sample_ties 2 = Some thresh ∧
    result_of reverse sample_M 2 (sample_state sample_ties) = Some res ∧
    let kept := kept_positions reverse sample_ties 2 thresh in
    let dropped := dropped_positions reverse sample_ties 2 thresh in
    let above := count (λ v, (thresh < v)%Qc) sample_ties in
    kept ++ dropped ≡ₚ np_argwhere_eq sample_ties thresh ∧
    Z.of_nat (length kept) = (2 - Z.of_nat above)%Z ∧
    (∀ p, p ∈ kept → res !! p = Some thresh) ∧
    (∀ p, p ∈ dropped → res !! p = Some 0%Qc) ∧
    (thresh ≠ 0%Qc →
     Z.of_nat (count (λ v, v = thresh) res) = (2 - Z.of_nat above)%Z).
Proof.
  apply (C4_ties_kept reverse (sample_state sample_ties) sample_M 3).
  - split_and!; [reflexivity | reflexivity |].
    apply upper_triangularb_correct. vm_compute. reflexivity.
  - vm_compute. split; discriminate.
  - intros l. apply reverse_Permutation.
Defined.

(** C5, as the code has it.  [threshold_Mtriu] has no check of its own on
    [k]: the only failure is the [IndexError] of [M_triu_unzip_sorted[-n_keep]],
    raised exactly when [k] exceeds the number of cells of the matrix or
    [k] is at most its opposite.  Every other [k], among them [0], the
    negative ones down to [1 - len] and those above the number of
    candidate cells, returns a matrix of the shape of the argument, which
    is the argument itself when numpy flattens it without copying. *)
Theorem C5_raises_iff shuffle s M data k :
  arrays s !! base M = Some data →
  let len := Z.of_nat (length data) in
  ((threshold_Mtriu shuffle M k s).2 = inl IndexError ↔
   (len < k ∨ k ≤ - len)%Z) ∧
  ((len < k ∨ k ≤ - len)%Z →
   threshold_Mtriu shuffle M k s = (print (line_n_keep k) s, inl IndexError)) ∧
  ((- len < k ≤ len)%Z →
   ∃ s' R, threshold_Mtriu shuffle M k s = (s', inr R) ∧
           shape R = shape M ∧ (flat_view M = true → R = M)).
Proof.
  intros Hdata len.
  assert (thresh_of data k = None ↔ (len < k ∨ k ≤ - len)%Z) as Hnone.
  { unfold thresh_of. rewrite py_index_None, length_np_sort. unfold len. lia. }
  assert ((- len < k ≤ len)%Z →
          ∃ s' R, threshold_Mtriu shuffle M k s = (s', inr R) ∧
                  shape R = shape M ∧ (flat_view M = true → R = M)) as Hret.
  { intros Hrange. destruct (thresh_of_is_Some data k Hrange) as [t Ht].
    rewrite (threshold_Mtriu_returns shuffle M k s data t Hdata Ht).
    eexists _, _. split_and!; [reflexivity | reflexivity |].
    intros Hv. by apply returned_view. }
  split_and!; [| | done].
  - split.
    + intros Hraise. destruct (decide (len < k ∨ k ≤ - len)%Z) as [| Hin]; [done |].
      destruct Hret as (s' & R & Hs' & _); [lia |]. rewrite Hs' in Hraise. done.
    + intros Hout%Hnone.
      by rewrite (threshold_Mtriu_raises shuffle M k s data Hdata Hout).
  - intros Hout%Hnone. by apply (threshold_Mtriu_raises shuffle M k s data).
Qed.

Lemma C5_witness :
  let len := Z.of_nat (length sample_one) in
  ((threshold_Mtriu reverse sample_M2 5 (sample_state sample_one)).2
     = inl IndexError ↔ (len < 5 ∨ 5 ≤ - len)%Z) ∧
  ((len < 5 ∨ 5 ≤ - len)%Z →
   threshold_Mtriu reverse sample_M2 5 (sample_state sample_one)
   = (print (line_n_keep 5) (sample_state sample_one), inl IndexError)) ∧
  ((- len < 5 ≤ len)%Z →
   ∃ s' R, threshold_Mtriu reverse sample_M2 5 (sample_state sample_one)
           = (s', inr R) ∧
           shape R = shape sample_M2 ∧
           (flat_view sample_M2 = true → R = sample_M2)).
Proof.
  apply (C5_raises_iff reverse (sample_state sample_one) sample_M2 sample_one 5).
  reflexivity.
Defined.

(** C5, as stated, fails: on the 2×2 matrix [[0,5],[0,0]], which has one
    candidate cell, the calls with [k = 0], [k = -1] and [k = 2] return a
    matrix, and so does the call with [k = 1] on a 1×1 matrix. *)
Lemma C5_counterexample :
  n_candidates 2 = 1 ∧ n_candidates 1 = 0 ∧
  (threshold_Mtriu id sample_M2 0 (sample_state sample_one)).2 = inr sample_M2 ∧
  (threshold_Mtriu id sample_M2 (-1) (sample_state sample_one)).2 = inr sample_M2 ∧
  (threshold_Mtriu id sample_M2 2 (sample_state sample_one)).2 = inr sample_M2 ∧
  (threshold_Mtriu id sample_M1 1 (sample_state sample_1x1)).2 = inr sample_M1 ∧
  ¬ (valid_input (sample_state sample_one) sample_M2 2 sample_one →
     ((threshold_Mtriu id sample_M2 0 (sample_state sample_one)).2
        = inl IndexError ↔
      (0 ≤ 0 ∨ Z.of_nat (n_candidates 2) < 0)%Z)) ∧
  ¬ (valid_input (sample_state sample_1x1) sample_M1 1 sample_1x1 →
     ((threshold_Mtriu id sample_M1 1 (sample_state sample_1x1)).2
        = inl IndexError ↔
      (1 ≤ 0 ∨ Z.of_nat (n_candidates 1) < 1)%Z)).
Proof.
  split_and!; try reflexivity.
  - intros Hclaim. destruct Hclaim as [_ Hraise].
    + split_and!; [reflexivity | reflexivity |].
      apply upper_triangularb_correct. vm_compute. reflexivity.
    + assert (0 ≤ 0 ∨ Z.of_nat (n_candidates 2) < 0)%Z as Hk by (left; lia).
      apply Hraise in Hk. vm_compute in Hk. discriminate.
  - intros Hclaim. destruct Hclaim as [_ Hraise].
    + split_and!; [reflexivity | reflexivity |].
      apply upper_triangularb_correct. vm_compute. reflexivity.
    + assert (1 ≤ 0 ∨ Z.of_nat (n_candidates 1) < 1)%Z as Hk
        by (right; vm_compute; reflexivity).
      apply Hraise in Hk. vm_compute in Hk. discriminate.
Qed.

(** C6, as the code has it.  [threshold_Mtriu] writes to the vector that
    [reshape(-1)] gives it and returns a view of that vector.  After a call
    with a valid [k] the returned matrix has the shape of the argument and
    holds the thresholded entries, no other buffer of the store has changed,
    and five lines have been printed.  When numpy flattens the argument
    without copying, as it does for a C-contiguous matrix such as the one
    [np.triu] returns, the returned matrix is the argument: the call works
    in place.  When the flattening copies, the returned matrix is on a
    buffer of its own and the argument is as it was. *)
Theorem C6_in_place shuffle s M n data k :
  valid_input s M n data → (1 ≤ k ≤ Z.of_nat (n_candidates n))%Z →
  ∃ thresh s' R,
    thresh_of data k = Some thresh ∧
    threshold_Mtriu shuffle M k s = (s', inr R) ∧
    shape R = shape M ∧
    result_of shuffle M k s = Some (thresholded shuffle data k thresh) ∧
    arrays s' !! base R = Some (thresholded shuffle data k thresh) ∧
    (∀ a, a ≠ base R → arrays s' !! a = arrays s !! a) ∧
    stdout s' = stdout s ++ printed shuffle data k thresh ∧
    (flat_view M = true → R = M) ∧
    (flat_view M = false →
     (base R ∉ dom (arrays s)) ∧ arrays s' !! base M = Some data).
Proof.
  intros Hin Hk.
  destruct (valid_call_setup shuffle s M n data k Hin Hk)
    as (t & Ht & Hpos & Hj & Hres & Hnonneg).
  destruct Hin as (_ & Hdata & Hvalid).
  eexists t, _, _. split_and!; [done | | | done | | | | |].
  - apply (threshold_Mtriu_returns shuffle M k s data t Hdata Ht).
  - reflexivity.
  - simpl. apply lookup_insert_eq.
  - intros a Ha. simpl. by apply lookup_insert_ne.
  - reflexivity.
  - apply returned_view.
  - intros Hcopy. pose proof (flat_base_copy M s Hcopy) as Hfresh.
    split; [done |]. simpl. rewrite lookup_insert_ne; [done |].
    intros Heq. apply Hfresh. rewrite Heq. apply elem_of_dom. eauto.
Qed.

Lemma C6_witness :
  ∃ thresh s' R,
    thresh_of sample_ties 2 = Some thresh ∧
    threshold_Mtriu reverse sample_M_strided 2 (sample_state sample_ties)
    = (s', inr R) ∧
    shape R = shape sample_M_strided ∧
    result_of reverse sample_M_strided 2 (sample_state sample_ties)
    = Some (thresholded reverse sample_ties 2 thresh) ∧
    arrays s' !! base R = Some (thresholded reverse sample_ties 2 thresh) ∧
    (∀ a, a ≠ base R →
          arrays s' !! a = arrays (sample_state sample_ties) !! a) ∧
    stdout s'
    = stdout (sample_state sample_ties) ++ printed reverse sample_ties 2 thresh ∧
    (flat_view sample_M_strided = true → R = sample_M_strided) ∧
    (flat_view sample_M_strided = false →
     (base R ∉ dom (arrays (sample_state sample_ties))) ∧
     arrays s' !! base sample_M_strided = Some sample_ties).
Proof.
  apply (C6_in_place reverse (sample_state sample_ties) sample_M_strided 3).
  - split_and!; [reflexivity | reflexivity |].
    apply upper_triangularb_correct. vm_compute. reflexivity.
  - vm_compute. split; discriminate.
Defined.

(** C6, as stated, fails: on the C-contiguous matrix
    [[0,5,5],[0,0,5],[0,0,0]] with [k = 2] the call sets one of the three
    tied entries of its argument to zero. *)
Lemma C6_counterexample :
  flat_view sample_M = true ∧
  arrays (sample_state sample_ties) !! base sample_M = Some sample_ties ∧
  arrays (threshold_Mtriu id sample_M 2 (sample_state sample_ties)).1
    !! base sample_M
  = Some (w <$> [0; 5; 5; 0; 0; 0; 0; 0; 0]%Z) ∧
  ¬ (valid_input (sample_state sample_ties) sample_M 3 sample_ties →
     (1 ≤ 2 ≤ Z.of_nat (n_candidates 3))%Z → is_shuffle id →
     arrays (threshold_Mtriu id sample_M 2 (sample_state sample_ties)).1
       !! base sample_M
     = arrays (sample_state sample_ties) !! base sample_M).
Proof.
  split_and!; [reflexivity | reflexivity | reflexivity |].
  intros Hclaim.
  assert (sample_ties = w <$> [0; 5; 5; 0; 0; 0; 0; 0; 0]%Z) as Heq;
    [| vm_compute in Heq; discriminate].
  assert (∀ x y : list weight, Some x = Some y → y = x) as Hinj by congruence.
  apply Hinj, Hclaim.
  - split_and!; [reflexivity | reflexivity |].
    apply upper_triangularb_correct. vm_compute. reflexivity.
  - vm_compute. split; discriminate.
  - intros l. reflexivity.
Qed.

(** C7. For every valid input matrix and valid [k], a position whose entry
    is strictly above the threshold keeps its entry, which is not zero, in
    the matrix that [threshold_Mtriu] returns, whatever the shuffle. *)
Theorem C7_above_thresh_kept shuffle s M n data k :
  valid_input s M n data → (1 ≤ k ≤ Z.of_nat (n_candidates n))%Z →
  is_shuffle shuffle →
  ∃ thresh res,
    thresh_of data k = Some thresh ∧
    result_of shuffle M k s = Some res ∧
    ∀ p v, data !! p = Some v → (thresh < v)%Qc →
           res !! p = Some v ∧ v ≠ 0%Qc.
Proof.
  intros Hin Hk Hsh.
  destruct (valid_call_setup shuffle s M n data k Hin Hk)
    as (t & Ht & Hpos & Hj & Hres & Hnonneg).
  exists t, (thresholded shuffle data k t). split_and!; [done | done |].
  intros p v Hp Hlt. split.
  - apply (thresholded_other shuffle data k t Hsh p v Hp).
    intros ->. qc_absurd.
  - intros ->. qc_absurd.
Qed.

Lemma C7_witness :
  ∃ thresh res,
    thresh_of sample_distinct 2 = Some thresh ∧
    result_of reverse sample_M 2 (sample_state sample_distinct) = Some res ∧
    ∀ p v, sample_distinct !! p = Some v → (thresh < v)%Qc →
           res !! p = Some v ∧ v ≠ 0%Qc.
Proof.
  apply (C7_above_thresh_kept reverse (sample_state sample_distinct) sample_M 3).
  - split_and!; [reflexivity | reflexivity |].
    apply upper_triangularb_correct. vm_compute. reflexivity.
  - vm_compute. split; discriminate.
  - intros l. apply reverse_Permutation.
Defined.

(** C8, as the code has it.  For a valid input matrix with at least one
    cell, when [k] is the number of candidate cells the call returns the
    input unchanged, whatever the shuffle, and so does a second call, on
    the argument or on the returned matrix.  No array that the store held
    before the call has changed; when numpy flattens the argument without
    copying, the returned matrix is the argument and the store is as it
    was.  The threshold is the smallest candidate when that one is not
    negative, and zero otherwise. *)
Theorem C8_keep_all_identity shuffle shuffle' s M n data k :
  valid_input s M n data → 1 ≤ n → k = Z.of_nat (n_candidates n) →
  is_shuffle shuffle → is_shuffle shuffle' →
  ∃ thresh s' R,
    thresh_of data k = Some thresh ∧
    threshold_Mtriu shuffle M k s = (s', inr R) ∧
    shape R = shape M ∧
    (flat_view M = true → R = M ∧ arrays s' = arrays s) ∧
    arrays s' !! base M = Some data ∧
    (∀ a, a ∈ dom (arrays s) → arrays s' !! a = arrays s !! a) ∧
    result_of shuffle M k s = Some data ∧
    result_of shuffle' M k s' = Some data ∧
    result_of shuffle' R k s' = Some data ∧
    (∀ m, minimum (candidates n data) = Some m →
          ((0 ≤ m)%Qc → thresh = m) ∧ ((m ≤ 0)%Qc → thresh = 0%Qc)).
Proof.
  intros (Hshape & Hdata & Hvalid) Hn Hk Hsh Hsh'.
  assert (- Z.of_nat (length data) < k ≤ Z.of_nat (length data))%Z as Hrange.
  { destruct Hvalid as [-> _]. pose proof (n_candidates_le n). nia. }
  destruct (thresh_of_is_Some data k Hrange) as [t Ht].
  destruct (thresh_of_Some data k t Ht) as (j & Hpos & Hj).
  pose proof (keep_all_unchanged n data k j t Hvalid Hn Hk Hpos Hj) as Hsame.
  assert (∀ a, a ∈ dom (arrays s) →
            <[flat_base M s := data]> (arrays s) !! a = arrays s !! a) as Hold.
  { intros a Ha. destruct (decide (a = flat_base M s)) as [-> | Hne];
      [| by apply lookup_insert_ne].
    rewrite lookup_insert_eq.
    destruct (flat_view M) eqn:Hv.
    - by rewrite flat_base_view.
    - by destruct (flat_base_copy M s Hv). }
  assert (base M ∈ dom (arrays s)) as Hdom by (apply elem_of_dom; eauto).
  eexists t, _, _. split_and!; [done | | | | | | | | |].
  - apply (threshold_Mtriu_returns shuffle M k s data t Hdata Ht).
  - reflexivity.
  - intros Hv. split; [by apply returned_view |].
    simpl. rewrite (Hsame shuffle Hsh), flat_base_view by done.
    by apply insert_id.
  - simpl. rewrite (Hsame shuffle Hsh), Hold; done.
  - intros a Ha. simpl. rewrite (Hsame shuffle Hsh). by apply Hold.
  - rewrite (result_of_returns shuffle M k s data t Hdata Ht).
    by rewrite (Hsame shuffle Hsh).
  - rewrite (result_of_returns shuffle' M k _ data t).
    + by rewrite (Hsame shuffle' Hsh').
    + simpl. rewrite (Hsame shuffle Hsh), Hold; done.
    + done.
  - rewrite (result_of_returns shuffle' _ k _ data t).
    + by rewrite (Hsame shuffle' Hsh').
    + simpl. rewrite (Hsame shuffle Hsh). apply lookup_insert_eq.
    + done.
  - intros m. by apply (keep_all_thresh_minimum n data k j t).
Qed.

Lemma C8_witness :
  ∃ thresh s' R,
    thresh_of sample_ties 3 = Some thresh ∧
    threshold_Mtriu reverse sample_M 3 (sample_state sample_ties)
    = (s', inr R) ∧
    shape R = shape sample_M ∧
    (flat_view sample_M = true →
     R = sample_M ∧ arrays s' = arrays (sample_state sample_ties)) ∧
    arrays s' !! base sample_M = Some sample_ties ∧
    (∀ a, a ∈ dom (arrays (sample_state sample_ties)) →
          arrays s' !! a = arrays (sample_state sample_ties) !! a) ∧
    result_of reverse sample_M 3 (sample_state sample_ties) = Some sample_ties ∧
    result_of id sample_M 3 s' = Some sample_ties ∧
    result_of id R 3 s' = Some sample_ties ∧
    (∀ m, minimum (candidates 3 sample_ties) = Some m →
          ((0 ≤ m)%Qc → thresh = m) ∧ ((m ≤ 0)%Qc → thresh = 0%Qc)).
Proof.
  apply (C8_keep_all_identity reverse id (sample_state sample_ties) sample_M 3).
  - split_and!; [reflexivity | reflexivity |].
    apply upper_triangularb_correct. vm_compute. reflexivity.
  - lia.
  - reflexivity.
  - intros l. apply reverse_Permutation.
  - intros l. reflexivity.
Defined.

(** C8, as stated, fails: on [[0,-1],[0,0]] with [k = 1], the number of
    candidate cells, the threshold is [0] and the smallest candidate is
    [-1]. *)
Lemma C8_counterexample :
  thresh_of sample_negative 1 = Some (w 0) ∧
  minimum (candidates 2 sample_negative) = Some (w (-1)) ∧
  result_of id sample_M2 1 (sample_state sample_negative) = Some sample_negative ∧
  ¬ (valid_input (sample_state sample_negative) sample_M2 2 sample_negative →
     1%Z = Z.of_nat (n_candidates 2) → is_shuffle id →
     ∃ thresh,
       thresh_of sample_negative 1 = Some thresh ∧
       minimum (candidates 2 sample_negative) = Some thresh ∧
       result_of id sample_M2 1 (sample_state sample_negative)
       = Some sample_negative).
Proof.
  split_and!; [reflexivity | reflexivity | reflexivity |].
  intros Hclaim. destruct Hclaim as (thresh & Hthresh & Hmin & _).
  - split_and!; [reflexivity | reflexivity |].
    apply upper_triangularb_correct. vm_compute. reflexivity.
  - reflexivity.
  - intros l. reflexivity.
  - vm_compute in Hthresh, Hmin. injection Hthresh as <-. discriminate.
Qed.

(** C9, as the code has it.  The module never imports [os], so the test
    [os.path.exists] with which [save_mat] and [save_png] begin raises
    [NameError] on every call, whether or not a file exists at the path.
    Nothing is written and an existing file keeps its content, but the
    call does not return: with a file at ["M_thr.txt"], both writers
    raise. *)
Theorem C9_writers_raise_NameError :
  ("os"%string ∉ module_globals) ∧
  files sample_fs !! "M_thr.txt"%string = Some (text_file [[w 1]]) ∧
  save_mat (sample_state sample_distinct) sample_M "M_thr.txt" sample_fs
  = (sample_fs, inl NameError) ∧
  save_png (sample_state sample_distinct) sample_M "M_thr.txt" sample_fs
  = Some (sample_fs, inl NameError) ∧
  (∀ s M path fs,
     save_mat s M path fs = (fs, inl NameError) ∧
     save_png s M path fs = Some (fs, inl NameError)) ∧
  (∀ s M path fs, (save_mat s M path fs).2 ≠ inr ()).
Proof.
  split_and!; try reflexivity; try done.
  intros Hin. apply (bool_decide_pack _) in Hin. vm_compute in Hin. done.
Qed.

(** C10. For every input matrix and valid [k], [threshold_Mtriu] changes
    only positions that hold the threshold, and it changes them to zero:
    every position of the result holds its input entry, or held the
    threshold and holds zero; so an entry of the result that is not zero is
    the input entry. *)
Theorem C10_only_ties_zeroed shuffle s M n data k :
  arrays s !! base M = Some data → length data = n * n →
  (1 ≤ k ≤ Z.of_nat (n_candidates n))%Z → is_shuffle shuffle →
  ∃ thresh res,
    thresh_of data k = Some thresh ∧
    result_of shuffle M k s = Some res ∧
    length res = length data ∧
    (∀ p v, data !! p = Some v →
            res !! p = Some v ∨ (v = thresh ∧ res !! p = Some 0%Qc)) ∧
    (∀ p v, data !! p = Some v → v ≠ thresh → res !! p = Some v) ∧
    (∀ p r, res !! p = Some r → r ≠ 0%Qc → data !! p = Some r).
Proof.
  intros Hdata Hlen Hk Hsh.
  assert (- Z.of_nat (length data) < k ≤ Z.of_nat (length data))%Z as Hrange.
  { rewrite Hlen. pose proof (n_candidates_le n). lia. }
  destruct (thresh_of_is_Some data k Hrange) as [t Ht].
  destruct (thresh_of_Some data k t Ht) as (j & Hpos & Hj).
  exists t, (thresholded shuffle data k t).
  split_and!; [done | by apply result_of_returns | apply length_assign_zero | | |].
  - by apply thresholded_lookup.
  - by apply thresholded_other.
  - intros p r Hr Hr0.
    assert (is_Some (data !! p)) as [v Hv].
    { apply lookup_lt_is_Some. rewrite <-(length_thresholded shuffle data k t).
      by eapply lookup_lt_Some. }
    destruct (thresholded_lookup shuffle data k t Hsh p v Hv) as [H | [_ H]];
      congruence.
Qed.

Lemma C10_witness :
  ∃ thresh res,
    thresh_of sample_ties 2 = Some thresh ∧
    result_of reverse sample_M 2 (sample_state sample_ties) = Some res ∧
    length res = length sample_ties ∧
    (∀ p v, sample_ties !! p = Some v →
            res !! p = Some v ∨ (v = thresh ∧ res !! p = Some 0%Qc)) ∧
    (∀ p v, sample_ties !! p = Some v → v ≠ thresh → res !! p = Some v) ∧
    (∀ p r, res !! p = Some r → r ≠ 0%Qc → sample_ties !! p = Some r).
Proof.
  apply (C10_only_ties_zeroed reverse (sample_state sample_ties) sample_M 3).
  - reflexivity.
  - reflexivity.
  - vm_compute. split; discriminate.
  - intros l. apply reverse_Permutation.
Defined.

(** * Further properties of threshold_Mtriu *)

(** ** Keep counts that denote the same position *)

Lemma thresh_of_position data k :
  thresh_of data k = py_position (length data) (- k) ≫= (np_sort data !!.).
Proof. unfold thresh_of. by rewrite py_index_position, length_np_sort. Qed.

Lemma same_position_same_run shuffle data k k' j :
  py_position (length data) (- k) = Some j →
  py_position (length data) (- k') = Some j →
  thresh_of data k = thresh_of data k' ∧
  keep_values_of data k = keep_values_of data k' ∧
  ∀ t, thresholded shuffle data k t = thresholded shuffle data k' t.
Proof.
  intros Hk Hk'. split_and!.
  - by rewrite !thresh_of_position, Hk, Hk'.
  - by rewrite (keep_values_of_drop data k j Hk), (keep_values_of_drop data k' j Hk').
  - intros t. unfold thresholded, n_thresh_keep_of.
    by rewrite (keep_values_of_drop data k j Hk), (keep_values_of_drop data k' j Hk').
Qed.

Lemma py_position_nonneg len (d : nat) :
  d < len → py_position len (Z.of_nat d) = Some d.
Proof.
  intros Hd. unfold py_position. rewrite decide_True by lia.
  by rewrite Nat2Z.id.
Qed.

(** X1. A keep count that is zero or negative is not rejected: Python
    reads [-n_keep] as an index from the front.  For [0 <= d < len], the
    call with [n_keep = -d] returns, and it leaves and returns the same
    matrix as the call with [n_keep = len - d]. *)
Theorem X1_nonpositive_keep_count shuffle s M data (d : nat) :
  arrays s !! base M = Some data → d < length data →
  let k_neg := (- Z.of_nat d)%Z in
  let k_pos := (Z.of_nat (length data) - Z.of_nat d)%Z in
  is_Some (result_of shuffle M k_neg s) ∧
  result_of shuffle M k_neg s = result_of shuffle M k_pos s ∧
  arrays (threshold_Mtriu shuffle M k_neg s).1
  = arrays (threshold_Mtriu shuffle M k_pos s).1 ∧
  (threshold_Mtriu shuffle M k_neg s).2 = (threshold_Mtriu shuffle M k_pos s).2.
Proof.
  intros Hdata Hd k_neg k_pos.
  assert (py_position (length data) (- k_neg) = Some d) as Hneg.
  { unfold k_neg. rewrite Z.opp_involutive. by apply py_position_nonneg. }
  assert (py_position (length data) (- k_pos) = Some d) as Hpos.
  { unfold k_pos.
    replace (Z.of_nat (length data) - Z.of_nat d)%Z
      with (Z.of_nat (length data - d)) by lia.
    rewrite py_position_from_end by lia. f_equal. lia. }
  destruct (same_position_same_run shuffle data k_neg k_pos d Hneg Hpos)
    as (Hthresh & _ & Hsame).
  assert (is_Some (thresh_of data k_neg)) as [t Ht].
  { apply thresh_of_is_Some. unfold k_neg. lia. }
  assert (thresh_of data k_pos = Some t) as Ht' by congruence.
  rewrite (result_of_returns shuffle M k_neg s data t Hdata Ht).
  rewrite (result_of_returns shuffle M k_pos s data t Hdata Ht').
  rewrite (threshold_Mtriu_returns shuffle M k_neg s data t Hdata Ht).
  rewrite (threshold_Mtriu_returns shuffle M k_pos s data t Hdata Ht').
  simpl. rewrite Hsame. eauto.
Qed.

Lemma X1_witness :
  let k_neg := (- Z.of_nat 7)%Z in
  let k_pos := (Z.of_nat (length sample_ties) - Z.of_nat 7)%Z in
  is_Some (result_of reverse sample_M k_neg (sample_state sample_ties)) ∧
  result_of reverse sample_M k_neg (sample_state sample_ties)
  = result_of reverse sample_M k_pos (sample_state sample_ties) ∧
  arrays (threshold_Mtriu reverse sample_M k_neg (sample_state sample_ties)).1
  = arrays (threshold_Mtriu reverse sample_M k_pos (sample_state sample_ties)).1 ∧
  (threshold_Mtriu reverse sample_M k_neg (sample_state sample_ties)).2
  = (threshold_Mtriu reverse sample_M k_pos (sample_state sample_ties)).2.
Proof.
  apply (X1_nonpositive_keep_count reverse (sample_state sample_ties) sample_M
           sample_ties 7).
  - reflexivity.
  - vm_compute. lia.
Defined.

(** X2. On a matrix with at least one cell, [n_keep = 0] keeps every
    entry, as [n_keep = len] does: the threshold is the smallest entry of
    the matrix and the call returns the matrix unchanged, whatever the
    shuffle. *)
Theorem X2_keep_count_zero shuffle s M data k :
  arrays s !! base M = Some data → 1 ≤ length data →
  k = 0%Z ∨ k = Z.of_nat (length data) →
  is_shuffle shuffle →
  thresh_of data k = minimum data ∧
  is_Some (thresh_of data k) ∧
  result_of shuffle M k s = Some data.
Proof.
  intros Hdata Hlen Hk Hsh.
  assert (py_position (length data) (- k) = Some 0) as Hpos.
  { destruct Hk as [-> | ->].
    - by apply (py_position_nonneg _ 0).
    - rewrite py_position_from_end by lia. f_equal. lia. }
  assert (thresh_of data k = minimum data) as Hmin.
  { rewrite thresh_of_position, Hpos. unfold minimum. by rewrite head_lookup. }
  assert (is_Some (np_sort data !! 0)) as [t Ht].
  { apply lookup_lt_is_Some. rewrite length_np_sort. lia. }
  assert (thresh_of data k = Some t) as Hthresh.
  { by rewrite thresh_of_position, Hpos. }
  split_and!; [done | by rewrite Hthresh |].
  rewrite (result_of_returns shuffle M k s data t Hdata Hthresh). f_equal.
  apply (thresholded_all_kept shuffle data k 0 t Hsh Hpos Ht).
  pose proof (rank_below data 0 t Ht).
  pose proof (count_complement (λ v, (v < t)%Qc) data). lia.
Qed.

Lemma X2_witness :
  thresh_of sample_ties 0 = minimum sample_ties ∧
  is_Some (thresh_of sample_ties 0) ∧
  result_of reverse sample_M 0 (sample_state sample_ties) = Some sample_ties.
Proof.
  apply (X2_keep_count_zero reverse (sample_state sample_ties) sample_M).
  - reflexivity.
  - vm_compute. lia.
  - by left.
  - intros l. apply reverse_Permutation.
Defined.

(** X3. The threshold does not increase with the keep count: asking to
    keep more entries gives a threshold that is at most the one for fewer
    entries. *)
Theorem X3_thresh_antitone data k k' t t' :
  (1 ≤ k ≤ k')%Z → (k' ≤ Z.of_nat (length data))%Z →
  thresh_of data k = Some t → thresh_of data k' = Some t' →
  (t' ≤ t)%Qc.
Proof.
  intros Hk Hk' Ht Ht'.
  rewrite thresh_of_position in Ht, Ht'.
  rewrite <-(Z2Nat.id k), py_position_from_end in Ht by lia.
  rewrite <-(Z2Nat.id k'), py_position_from_end in Ht' by lia.
  simpl in Ht, Ht'.
  pose proof (rank_keep_ge data _ t' Ht') as Hge.
  rewrite Forall_forall in Hge. apply Hge.
  apply list_elem_of_lookup.
  exists (Z.to_nat k' - Z.to_nat k). rewrite lookup_drop, <-Ht. f_equal. lia.
Qed.

Lemma X3_witness :
  thresh_of sample_distinct 1 = Some (w 3) ∧
  thresh_of sample_distinct 2 = Some (w 2) ∧
  (w 2 ≤ w 3)%Qc.
Proof.
  split_and!; [reflexivity | reflexivity |].
  apply (X3_thresh_antitone sample_distinct 1 2 (w 3) (w 2)).
  - lia.
  - vm_compute. discriminate.
  - reflexivity.
  - reflexivity.
Defined.

(** X4. When exactly [n_keep] entries are at or above the threshold, that
    is, when no tie at the threshold is in surplus, the call returns the
    matrix unchanged, whatever the shuffle. *)
Theorem X4_no_surplus_tie shuffle s M data k thresh :
  arrays s !! base M = Some data →
  (1 ≤ k ≤ Z.of_nat (length data))%Z → is_shuffle shuffle →
  thresh_of data k = Some thresh →
  Z.of_nat (count (λ v, ¬ (v < thresh)%Qc) data) = k →
  result_of shuffle M k s = Some data.
Proof.
  intros Hdata Hk Hsh Ht Hcount.
  rewrite (result_of_returns shuffle M k s data thresh Hdata Ht). f_equal.
  destruct (thresh_of_Some data k thresh Ht) as (j & Hpos & Hj).
  apply (thresholded_all_kept shuffle data k j thresh Hsh Hpos Hj).
  rewrite <-(Z2Nat.id k), py_position_from_end in Hpos by lia.
  simplify_eq. lia.
Qed.

Lemma X4_witness :
  result_of reverse sample_M 2 (sample_state sample_distinct)
  = Some sample_distinct.
Proof.
  apply (X4_no_surplus_tie reverse (sample_state sample_distinct) sample_M
           sample_distinct 2 (w 2)).
  - reflexivity.
  - vm_compute. split; discriminate.
  - intros l. apply reverse_Permutation.
  - reflexivity.
  - reflexivity.
Defined.

(** ** What the assignment does to the entries as a multiset *)

Lemma count_insert_gen (P : weight → Prop) `{!∀ x, Decision (P x)}
    (a : list weight) (p : nat) (x y : weight) :
  a !! p = Some x →
  count P (<[p := y]> a) + (if decide (P x) then 1 else 0)
  = count P a + (if decide (P y) then 1 else 0).
Proof.
  intros Hp.
  pose proof (lookup_lt_Some _ _ _ Hp) as Hlt.
  rewrite insert_take_drop by done.
  rewrite <-(take_drop_middle a p x Hp) at 3.
  rewrite !count_app. unfold count. rewrite !filter_cons.
  destruct (decide (P x)), (decide (P y)); simpl; lia.
Qed.

Lemma count_assign_zero_gen (P : weight → Prop) `{!∀ x, Decision (P x)}
    (I : list nat) (a : list weight) (t : weight) :
  NoDup I → (∀ p, p ∈ I → a !! p = Some t) →
  count P (assign_zero I a) + (if decide (P t) then length I else 0)
  = count P a + (if decide (P 0%Qc) then length I else 0).
Proof.
  intros Hnd Hin. induction Hnd as [| q I Hq Hnd IH].
  { simpl. destruct (decide (P t)), (decide (P 0%Qc)); lia. }
  simpl.
  assert (assign_zero I a !! q = Some t) as Hq'.
  { rewrite assign_zero_lookup_notin by done. apply Hin. by left. }
  pose proof (count_insert_gen P _ _ _ 0%Qc Hq') as Hins.
  assert (count P (assign_zero I a) + (if decide (P t) then length I else 0)
          = count P a + (if decide (P 0%Qc) then length I else 0)) as IH'.
  { apply IH. intros p Hp. apply Hin. by right. }
  destruct (decide (P t)), (decide (P 0%Qc)); lia.
Qed.

Lemma assign_zero_id (I : list nat) (a : list weight) :
  (∀ p, p ∈ I → a !! p = Some 0%Qc) → assign_zero I a = a.
Proof.
  induction I as [| q I IH]; intros Hin; [done |].
  simpl. rewrite IH by (intros p Hp; apply Hin; by right).
  apply list_insert_id, Hin. by left.
Qed.

(** Setting to zero positions that hold [t] turns that many copies of [t]
    into zeros and leaves the rest of the entries as they are. *)
Lemma assign_zero_Permutation (I : list nat) (a : list weight) (t : weight) :
  t ≠ 0%Qc → NoDup I → (∀ p, p ∈ I → a !! p = Some t) →
  ∃ R, a ≡ₚ replicate (length I) t ++ R ∧
       assign_zero I a ≡ₚ replicate (length I) 0%Qc ++ R.
Proof.
  intros Ht Hnd Hin. induction Hnd as [| q I Hq Hnd IH].
  { by exists a. }
  destruct IH as (R' & Ha & Hb); [intros p Hp; apply Hin; by right |].
  assert (assign_zero I a !! q = Some t) as Hq'.
  { rewrite assign_zero_lookup_notin by done. apply Hin. by left. }
  pose proof (lookup_lt_Some _ _ _ Hq') as Hlt.
  assert (t ∈ R') as [R HR]%elem_of_Permutation.
  { assert (t ∈ replicate (length I) 0%Qc ++ R') as Hel.
    { rewrite <-Hb. by eapply list_elem_of_lookup_2. }
    apply elem_of_app in Hel as [Hel%elem_of_replicate_inv | Hel]; done. }
  exists R. simpl. split.
  - by rewrite Ha, HR, <-Permutation_middle.
  - rewrite insert_take_drop by done.
    rewrite <-(take_drop_middle _ _ _ Hq'), HR in Hb.
    rewrite <-!Permutation_middle in Hb. apply (inj (t ::.)) in Hb.
    by rewrite <-Permutation_middle, Hb.
Qed.

Section surplus.
Variables (shuffle : list nat → list nat) (data : list weight).
Variables (k : Z) (j : nat) (t : weight).
Hypothesis Hshuffle : is_shuffle shuffle.
Hypothesis Hpos : py_position (length data) (- k) = Some j.
Hypothesis Hj : np_sort data !! j = Some t.

Lemma NoDup_dropped_positions : NoDup (dropped_positions shuffle data k t).
Proof.
  unfold dropped_positions. eapply sublist_NoDup; [| apply sublist_drop].
  by apply NoDup_idx.
Qed.

Lemma elem_of_dropped_positions p :
  p ∈ dropped_positions shuffle data k t → data !! p = Some t.
Proof.
  intros Hp. apply (elem_of_idx shuffle data t Hshuffle).
  by eapply subseteq_drop.
Qed.

Lemma length_dropped_positions :
  length (dropped_positions shuffle data k t) + (length data - j)
  = count (λ v, v = t) data + count (λ v, (t < v)%Qc) data.
Proof.
  unfold dropped_positions. rewrite length_drop.
  pose proof (n_thresh_keep_le shuffle data k j t Hshuffle Hpos).
  pose proof (n_thresh_keep_above data k j t Hpos Hj).
  rewrite (length_idx shuffle data t Hshuffle) in *. lia.
Qed.

Lemma thresholded_dropped_positions :
  thresholded shuffle data k t
  = assign_zero (dropped_positions shuffle data k t) data.
Proof. done. Qed.
End surplus.

(** X5. A call with a threshold that is not zero sets exactly the surplus
    ties to zero: the number of zero entries grows by the number of entries
    equal to the threshold plus the number above it minus [n_keep], and the
    number of entries that are not zero shrinks by as much. *)
Theorem X5_zeroed_count shuffle s M data k thresh :
  arrays s !! base M = Some data →
  (1 ≤ k ≤ Z.of_nat (length data))%Z → is_shuffle shuffle →
  thresh_of data k = Some thresh → thresh ≠ 0%Qc →
  ∃ res,
    result_of shuffle M k s = Some res ∧
    let surplus :=
      (Z.of_nat (count (λ v, v = thresh) data)
       + Z.of_nat (count (λ v, (thresh < v)%Qc) data) - k)%Z in
    (0 ≤ surplus)%Z ∧
    Z.of_nat (count (λ v, v = 0%Qc) res)
    = (Z.of_nat (count (λ v, v = 0%Qc) data) + surplus)%Z ∧
    Z.of_nat (count (λ v, v ≠ 0%Qc) res)
    = (Z.of_nat (count (λ v, v ≠ 0%Qc) data) - surplus)%Z.
Proof.
  intros Hdata Hk Hsh Ht Hne.
  destruct (thresh_of_Some data k thresh Ht) as (j & Hpos & Hj).
  pose proof Hpos as Hpos'.
  rewrite <-(Z2Nat.id k), py_position_from_end in Hpos' by lia.
  assert (j = length data - Z.to_nat k) as Hj_eq by congruence.
  exists (thresholded shuffle data k thresh).
  split; [by apply result_of_returns |].
  pose proof (length_dropped_positions shuffle data k j thresh Hsh Hpos Hj)
    as Hlen.
  pose proof (count_assign_zero_gen (λ v, v = 0%Qc)
    (dropped_positions shuffle data k thresh) data thresh
    (NoDup_dropped_positions shuffle data k thresh Hsh)
    (elem_of_dropped_positions shuffle data k thresh Hsh)) as Hzero.
  rewrite decide_False, decide_True in Hzero by done.
  rewrite <-thresholded_dropped_positions in Hzero.
  pose proof (count_complement (λ v, v = 0%Qc)
                (thresholded shuffle data k thresh)) as Hc.
  pose proof (count_complement (λ v, v = 0%Qc) data) as Hc'.
  rewrite (length_thresholded shuffle data k thresh) in Hc.
  simpl. split_and!; lia.
Qed.

Lemma X5_witness :
  ∃ res,
    result_of reverse sample_M 2 (sample_state sample_ties) = Some res ∧
    let surplus :=
      (Z.of_nat (count (λ v, v = w 5) sample_ties)
       + Z.of_nat (count (λ v, (w 5 < v)%Qc) sample_ties) - 2)%Z in
    (0 ≤ surplus)%Z ∧
    Z.of_nat (count (λ v, v = 0%Qc) res)
    = (Z.of_nat (count (λ v, v = 0%Qc) sample_ties) + surplus)%Z ∧
    Z.of_nat (count (λ v, v ≠ 0%Qc) res)
    = (Z.of_nat (count (λ v, v ≠ 0%Qc) sample_ties) - surplus)%Z.
Proof.
  apply (X5_zeroed_count reverse (sample_state sample_ties) sample_M
           sample_ties 2 (w 5)).
  - reflexivity.
  - vm_compute. split; discriminate.
  - intros l. apply reverse_Permutation.
  - reflexivity.
  - vm_compute. discriminate.
Defined.

(** X6. The slices of [threshold_Mtriu] stay in range.  For
    [1 <= n_keep <= len], [keep_values] has [n_keep] entries, all at or
    above the threshold, which is an entry of the matrix; [n_thresh_keep]
    is at least one and at most the number of positions found by
    [np.argwhere]; and every position of [idx], so every position written
    by the assignment, is a position of the vector that holds the
    threshold. *)
Theorem X6_slices_in_range shuffle data k thresh :
  (1 ≤ k ≤ Z.of_nat (length data))%Z → is_shuffle shuffle →
  thresh_of data k = Some thresh →
  let idx := shuffle (np_argwhere_eq data thresh) in
  Z.of_nat (length (keep_values_of data k)) = k ∧
  Forall (λ v, (thresh ≤ v)%Qc) (keep_values_of data k) ∧
  thresh ∈ data ∧
  1 ≤ n_thresh_keep_of data k thresh ≤ length idx ∧
  length idx = count (λ v, v = thresh) data ∧
  NoDup idx ∧
  ∀ p, p ∈ idx → p < length data ∧ data !! p = Some thresh.
Proof.
  intros Hk Hsh Ht idx.
  destruct (thresh_of_Some data k thresh Ht) as (j & Hpos & Hj).
  pose proof Hpos as Hpos'.
  rewrite <-(Z2Nat.id k), py_position_from_end in Hpos' by lia.
  assert (j = length data - Z.to_nat k) as Hj_eq by congruence.
  rewrite (keep_values_of_drop data k j Hpos).
  split_and!.
  - rewrite length_drop, length_np_sort. lia.
  - by apply rank_keep_ge.
  - by apply (rank_thresh_in data j).
  - by apply (n_thresh_keep_pos data k j).
  - by apply (n_thresh_keep_le shuffle data k j).
  - by apply length_idx.
  - by apply NoDup_idx.
  - intros p Hp%(elem_of_idx shuffle data thresh Hsh).
    split; [by eapply lookup_lt_Some | done].
Qed.

Lemma X6_witness :
  let idx := reverse (np_argwhere_eq sample_ties (w 5)) in
  Z.of_nat (length (keep_values_of sample_ties 2)) = 2%Z ∧
  Forall (λ v, (w 5 ≤ v)%Qc) (keep_values_of sample_ties 2) ∧
  w 5 ∈ sample_ties ∧
  1 ≤ n_thresh_keep_of sample_ties 2 (w 5) ≤ length idx ∧
  length idx = count (λ v, v = w 5) sample_ties ∧
  NoDup idx ∧
  ∀ p, p ∈ idx → p < length sample_ties ∧ sample_ties !! p = Some (w 5).
Proof.
  apply (X6_slices_in_range reverse sample_ties 2 (w 5)).
  - vm_compute. split; discriminate.
  - intros l. apply reverse_Permutation.
  - reflexivity.
Defined.

(** X7. The shuffle decides only which of the tied positions are set to
    zero: the results of two calls on the same matrix that differ in the
    outcome of the shuffle hold the same entries with the same
    multiplicities (they are permutations of each other), and they agree,
    with the input, on every position whose entry is not the threshold. *)
Theorem X7_shuffle_only_permutes shuffle shuffle' s M data k thresh :
  arrays s !! base M = Some data →
  is_shuffle shuffle → is_shuffle shuffle' →
  thresh_of data k = Some thresh →
  ∃ res res',
    result_of shuffle M k s = Some res ∧
    result_of shuffle' M k s = Some res' ∧
    res ≡ₚ res' ∧
    ∀ p v, data !! p = Some v → v ≠ thresh →
           res !! p = Some v ∧ res' !! p = Some v.
Proof.
  intros Hdata Hsh Hsh' Ht.
  destruct (thresh_of_Some data k thresh Ht) as (j & Hpos & Hj).
  exists (thresholded shuffle data k thresh), (thresholded shuffle' data k thresh).
  split_and!; [by apply result_of_returns | by apply result_of_returns | |].
  - destruct (decide (thresh = 0%Qc)) as [H0 | Hne].
    + by rewrite (thresholded_zero_thresh shuffle data k j thresh),
        (thresholded_zero_thresh shuffle' data k j thresh).
    + destruct (assign_zero_Permutation
        (dropped_positions shuffle data k thresh) data thresh Hne
        (NoDup_dropped_positions shuffle data k thresh Hsh)
        (elem_of_dropped_positions shuffle data k thresh Hsh))
        as (R & Ha & Hb).
      destruct (assign_zero_Permutation
        (dropped_positions shuffle' data k thresh) data thresh Hne
        (NoDup_dropped_positions shuffle' data k thresh Hsh')
        (elem_of_dropped_positions shuffle' data k thresh Hsh'))
        as (R' & Ha' & Hb').
      pose proof (length_dropped_positions shuffle data k j thresh Hsh Hpos Hj)
        as Hlen.
      pose proof (length_dropped_positions shuffle' data k j thresh Hsh' Hpos Hj)
        as Hlen'.
      assert (length (dropped_positions shuffle' data k thresh)
              = length (dropped_positions shuffle data k thresh)) as Heq by lia.
      rewrite Heq in Ha', Hb'.
      assert (R ≡ₚ R') as HR.
      { eapply Permutation_app_inv_l. etrans; [symmetry; exact Ha | exact Ha']. }
      rewrite !thresholded_dropped_positions.
      etrans; [exact Hb |]. etrans; [| symmetry; exact Hb'].
      by apply Permutation_app.
  - intros p v Hp Hne. split; by apply thresholded_other.
Qed.

Lemma X7_witness :
  ∃ res res',
    result_of id sample_M 2 (sample_state sample_ties) = Some res ∧
    result_of reverse sample_M 2 (sample_state sample_ties) = Some res' ∧
    res ≡ₚ res' ∧
    ∀ p v, sample_ties !! p = Some v → v ≠ w 5 →
           res !! p = Some v ∧ res' !! p = Some v.
Proof.
  apply (X7_shuffle_only_permutes id reverse (sample_state sample_ties)
           sample_M sample_ties 2 (w 5)).
  - reflexivity.
  - intros l. reflexivity.
  - intros l. apply reverse_Permutation.
  - reflexivity.
Defined.

(** ** Thresholding twice *)

Section again.
Variables (shuffle shuffle' : list nat → list nat).
Variables (s : state) (M : ndarray) (n : nat) (data : list weight) (k : Z).
Variable t : weight.
Hypothesis Hin : valid_input s M n data.
Hypothesis Hk : (1 ≤ k ≤ Z.of_nat (n_candidates n))%Z.
Hypothesis Hsh : is_shuffle shuffle.
Hypothesis Hsh' : is_shuffle shuffle'.
Hypothesis Ht : thresh_of data k = Some t.

(** The result of a call has the threshold of its input, and no tie in
    surplus. *)
Lemma thresholded_again :
  upper_triangular n (thresholded shuffle data k t) ∧
  thresh_of (thresholded shuffle data k t) k = Some t ∧
  thresholded shuffle' (thresholded shuffle data k t) k t
  = thresholded shuffle data k t.
Proof.
  pose proof Hin as (_ & Hdata & Hvalid).
  remember (thresholded shuffle data k t) as res eqn:Hres_eq.
  destruct (thresh_of_Some data k t Ht) as (j & Hpos & Hj).
  pose proof (valid_thresh_nonneg n data k Hvalid Hk t Ht) as Hnonneg.
  apply Qc_le_lteq in Hnonneg as [Hpos_t | H0].
  - destruct (positive_thresh_count shuffle s M n data k t Hin Hk Hsh Ht Hpos_t)
      as (res0 & Hres0 & Htri & Hcount & _ & _).
    rewrite (result_of_returns shuffle M k s data t Hdata Ht) in Hres0.
    assert (res0 = res) as -> by congruence.
    destruct (valid_thresh_is_Some n res k Htri Hk) as [t' Ht'].
    pose proof (valid_above_lt n res k Htri Hk t' Ht') as Habove'.
    pose proof (valid_below_le n res k Htri Hk t' Ht') as Hbelow'.
    pose proof (valid_above_lt n data k Hvalid Hk t Ht) as Habove.
    pose proof (count_complement (λ v, (v < t')%Qc) res) as Hc'.
    pose proof (valid_k_le_length n res k Htri Hk) as Hle.
    assert (count (λ v, (t < v)%Qc) res = count (λ v, (t < v)%Qc) data)
      as Hsame.
    { pose proof (count_assign_zero_gen (λ v, (t < v)%Qc)
        (dropped_positions shuffle data k t) data t
        (NoDup_dropped_positions shuffle data k t Hsh)
        (elem_of_dropped_positions shuffle data k t Hsh)) as Hgen.
      rewrite !decide_False in Hgen
        by (apply Qc_lt_irrefl || (intros ?; qc_absurd)).
      rewrite Hres_eq, thresholded_dropped_positions. lia. }
    assert (t' = t) as ->.
    { destruct (Qc_trichotomy t' t) as [Hlt | [-> | Hlt]]; [| done |]; exfalso.
      - assert (count (λ v, (t ≤ v)%Qc) res ≤ count (λ v, (t' < v)%Qc) res)
          as Hm; [| lia].
        apply count_mono. intros v _ Hv. by eapply Qclt_le_trans.
      - assert (count (λ v, ¬ (v < t')%Qc) res ≤ count (λ v, (t < v)%Qc) res)
          as Hm; [| lia].
        apply count_mono. intros v _ Hv.
        apply Qcnot_lt_le in Hv. by eapply Qclt_le_trans. }
    split_and!; [done | done |].
    apply (thresholded_all_kept shuffle' res k (length res - Z.to_nat k) t Hsh').
    + by apply (valid_position n).
    + by apply (valid_thresh_sorted n).
    + rewrite (count_ext (λ v, ¬ (v < t)%Qc) (λ v, (t ≤ v)%Qc)); [lia |].
      intros v _. split; [apply Qcnot_lt_le | apply Qcle_not_lt].
  - assert (res = data) as Hres.
    { rewrite Hres_eq. by apply (thresholded_zero_thresh shuffle data k j t). }
    rewrite Hres. split_and!; [done | done |].
    by apply (thresholded_zero_thresh shuffle' data k j t).
Qed.
End again.

(** X8. On a valid input matrix with a valid [k], [threshold_Mtriu] is
    idempotent: a second call with the same [k] on the matrix returned by
    the first (the argument itself, when numpy flattens it without copying)
    computes the same threshold and returns that matrix unchanged, whatever
    the two shuffles. *)
Theorem X8_idempotent shuffle shuffle' s M n data k :
  valid_input s M n data → (1 ≤ k ≤ Z.of_nat (n_candidates n))%Z →
  is_shuffle shuffle → is_shuffle shuffle' →
  ∃ s' R res,
    threshold_Mtriu shuffle M k s = (s', inr R) ∧
    (flat_view M = true → R = M) ∧
    result_of shuffle M k s = Some res ∧
    thresh_of res k = thresh_of data k ∧
    result_of shuffle' R k s' = Some res ∧
    arrays (threshold_Mtriu shuffle' R k s').1 = arrays s'.
Proof.
  intros Hin Hk Hsh Hsh'.
  pose proof Hin as (_ & Hdata & Hvalid).
  destruct (valid_thresh_is_Some n data k Hvalid Hk) as [t Ht].
  destruct (thresholded_again shuffle shuffle' s M n data k t Hin Hk Hsh Hsh' Ht)
    as (Htri & Ht' & Hsame).
  eexists _, (NDArray (flat_base M s) (shape M) true),
    (thresholded shuffle data k t).
  assert (∀ out, arrays (State (<[flat_base M s := thresholded shuffle data k t]>
                                  (arrays s)) out)
                   !! base (NDArray (flat_base M s) (shape M) true)
                 = Some (thresholded shuffle data k t)) as Hdata'.
  { intros out. simpl. apply lookup_insert_eq. }
  split_and!.
  - apply (threshold_Mtriu_returns shuffle M k s data t Hdata Ht).
  - apply returned_view.
  - by apply result_of_returns.
  - congruence.
  - rewrite (result_of_returns shuffle' _ k _ _ t (Hdata' _) Ht').
    by rewrite Hsame.
  - rewrite (threshold_Mtriu_returns shuffle' _ k _ _ t (Hdata' _) Ht').
    simpl. rewrite Hsame. by apply insert_id, lookup_insert_eq.
Qed.

Lemma X8_witness :
  ∃ s' R res,
    threshold_Mtriu reverse sample_M 2 (sample_state sample_ties)
    = (s', inr R) ∧
    (flat_view sample_M = true → R = sample_M) ∧
    result_of reverse sample_M 2 (sample_state sample_ties) = Some res ∧
    thresh_of res 2 = thresh_of sample_ties 2 ∧
    result_of id R 2 s' = Some res ∧
    arrays (threshold_Mtriu id R 2 s').1 = arrays s'.
Proof.
  apply (X8_idempotent reverse id (sample_state sample_ties) sample_M 3).
  - split_and!; [reflexivity | reflexivity |].
    apply upper_triangularb_correct. vm_compute. reflexivity.
  - vm_compute. split; discriminate.
  - intros l. apply reverse_Permutation.
  - intros l. reflexivity.
Defined.

(** * Further properties of the script and of the slice of the writers *)

(** X9. From a loaded [n]×[n] matrix [M] and a valid [k], the script's
    [np.triu] and [threshold_Mtriu] return without an error.  The
    thresholded matrix lives in a fresh buffer: [M] and every other array
    that existed before keep their entries.  Every entry of the thresholded
    matrix that is not zero is the entry of [M] at the same cell, and that
    cell is strictly above the diagonal. *)
Theorem X9_script_keeps_loaded_matrix shuffle s M n data k :
  shape M = [n; n] → arrays s !! base M = Some data → length data = n * n →
  (1 ≤ k ≤ Z.of_nat (n_candidates n))%Z → is_shuffle shuffle →
  ∃ s' thr res,
    threshold_loaded shuffle M k s = Some (s', inr thr) ∧
    shape thr = [n; n] ∧
    (base thr ∉ dom (arrays s)) ∧
    arrays s' !! base M = Some data ∧
    (∀ a, a ∈ dom (arrays s) → arrays s' !! a = arrays s !! a) ∧
    arrays s' !! base thr = Some res ∧
    length res = n * n ∧
    (∀ p v, res !! p = Some v → v ≠ 0%Qc →
            data !! p = Some v ∧ is_candidate n p = true).
Proof.
  intros Hshape Hdata Hlen Hk Hsh.
  set (a := fresh (dom (arrays s))).
  assert (a ∉ dom (arrays s)) as Hfresh by apply is_fresh.
  set (tri := np_triu1 n data).
  set (s1 := State (<[a := tri]> (arrays s)) (stdout s)).
  assert (np_triu M s = Some (s1, NDArray a [n; n] true)) as Htriu.
  { unfold np_triu, read. rewrite Hshape.
    by rewrite (lookup_total_correct _ _ _ Hdata). }
  pose proof (np_triu1_upper_triangular n data Hlen) as Hvalid.
  fold tri in Hvalid.
  assert (arrays s1 !! a = Some tri) as Htri by apply lookup_insert_eq.
  destruct (valid_thresh_is_Some n tri k Hvalid Hk) as [t Ht].
  destruct (thresh_of_Some tri k t Ht) as (j & Hpos & Hj).
  pose proof (threshold_Mtriu_returns shuffle (NDArray a [n; n] true) k s1 tri t
                Htri Ht) as Hrun.
  eexists _, (NDArray a [n; n] true), (thresholded shuffle tri k t).
  split_and!.
  - unfold threshold_loaded. rewrite Htriu, Hrun. reflexivity.
  - done.
  - done.
  - assert (a ≠ base M) as Hne.
    { intros ->. apply Hfresh, elem_of_dom. eauto. }
    unfold s1. simpl. by rewrite !lookup_insert_ne.
  - intros b Hb.
    assert (a ≠ b) as Hne by (intros <-; by apply Hfresh).
    unfold s1. simpl. by rewrite !lookup_insert_ne.
  - simpl. apply lookup_insert_eq.
  - rewrite (length_thresholded shuffle tri k t). by destruct Hvalid.
  - intros p v Hv Hv0.
    assert (is_Some (tri !! p)) as [v' Hv'].
    { apply lookup_lt_is_Some. rewrite <-(length_thresholded shuffle tri k t).
      by eapply lookup_lt_Some. }
    assert (v' = v) as ->.
    { destruct (thresholded_lookup shuffle tri k t Hsh p v' Hv')
        as [H | [_ H]]; congruence. }
    destruct (is_candidate n p) eqn:Hc.
    + split; [| done]. by rewrite <-(np_triu1_candidates n data p Hc).
    + destruct Hvalid as [_ Hzero]. by destruct (Hv0 (Hzero p v Hv' Hc)).
Qed.

Lemma X9_witness :
  ∃ s' thr res,
    threshold_loaded reverse sample_M 2 (sample_state sample_full)
    = Some (s', inr thr) ∧
    shape thr = [3; 3] ∧
    (base thr ∉ dom (arrays (sample_state sample_full))) ∧
    arrays s' !! base sample_M = Some sample_full ∧
    (∀ a, a ∈ dom (arrays (sample_state sample_full)) →
          arrays s' !! a = arrays (sample_state sample_full) !! a) ∧
    arrays s' !! base thr = Some res ∧
    length res = 3 * 3 ∧
    (∀ p v, res !! p = Some v → v ≠ 0%Qc →
            sample_full !! p = Some v ∧ is_candidate 3 p = true).
Proof.
  apply (X9_script_keeps_loaded_matrix reverse (sample_state sample_full)
           sample_M 3 sample_full 2).
  - reflexivity.
  - reflexivity.
  - reflexivity.
  - vm_compute. split; discriminate.
  - intros l. apply reverse_Permutation.
Defined.

(** ** The slice [M[1:, 1:]] *)


